(** * tarkov-data-overlay: the override reconciliation and merge engine

    A shallow embedding of [src/lib/task-validator.ts] (value normaliser,
    subset comparator, field reconciler) and of the consumer example that
    applies an overlay to tasks ([applyTaskOverlay], [applyOverlayToTasks]),
    together with the properties the specification states about them.

    Conventions of the embedding.
    - A JavaScript value of type [unknown] is a [value]: JSON data plus
      [undefined].  Numbers are represented by their integer value
      (fractions are outside the model); strings are sequences of code
      units.
    - An object is the list of its own enumerable properties in the order
      [Object.keys] reports them.  Properties inherited from a prototype are
      not part of the model.
    - [String.prototype.localeCompare] is locale dependent; the normaliser
      is developed over an arbitrary comparison, with the properties of a
      consistent comparator assumed where a proof needs them.
    - A call that throws a [TypeError] yields [Throw]. *)

From Stdlib Require Import List String Ascii ZArith Lia Bool Arith.
From Stdlib Require Import Permutation Sorted DecimalString.
From Stdlib Require Import DecimalZ DecimalPos.
Import ListNotations.
Set Warnings "-register-all".

Local Open Scope list_scope.
Local Open Scope string_scope.

(* ================================================================== *)
(** * The JavaScript fragment the program uses                          *)
(* ================================================================== *)

Module JS.

(** ** Values *)

Inductive value : Type :=
| VUndefined
| VNull
| VBool (b : bool)
| VNum (n : Z)
| VStr (s : string)
| VArr (items : list value)
| VObj (props : list (string * value)).

(** An object: own enumerable properties, in enumeration order. *)
Definition obj : Type := list (string * value).

(** Induction over values that reaches into arrays and objects. *)
Section value_induction.
Variable P : value -> Prop.
Hypothesis Hundefined : P VUndefined.
Hypothesis Hnull : P VNull.
Hypothesis Hbool : forall b, P (VBool b).
Hypothesis Hnum : forall n, P (VNum n).
Hypothesis Hstr : forall s, P (VStr s).
Hypothesis Harr : forall l, Forall P l -> P (VArr l).
Hypothesis Hobj : forall o, Forall (fun kv => P (snd kv)) o -> P (VObj o).

Fixpoint value_nested_ind (v : value) : P v :=
    match v with
    | VUndefined => Hundefined
    | VNull => Hnull
    | VBool b => Hbool b
    | VNum n => Hnum n
    | VStr s => Hstr s
    | VArr l =>
        Harr l ((fix go (l : list value) : Forall P l :=
                   match l with
                   | [] => Forall_nil _
                   | x :: r => Forall_cons _ (value_nested_ind x) (go r)
                   end) l)
    | VObj o =>
        Hobj o ((fix go (o : obj) : Forall (fun kv => P (snd kv)) o :=
                   match o with
                   | [] => Forall_nil _
                   | kv :: r => Forall_cons _ (value_nested_ind (snd kv)) (go r)
                   end) o)
    end.
End value_induction.

(** ** Outcome of a call that may throw *)

Inductive result (A : Type) : Type :=
| Ok (a : A)
| Throw.
Arguments Ok {A} a.
Arguments Throw {A}.

Definition bind {A B} (r : result A) (k : A -> result B) : result B :=
  match r with
  | Ok a => k a
  | Throw => Throw
  end.

Notation "x <- r ;; k" := (bind r (fun x => k))
  (at level 61, r at next level, right associativity).

Fixpoint mapM {A B} (f : A -> result B) (l : list A) : result (list B) :=
  match l with
  | [] => Ok []
  | x :: r => y <- f x ;; ys <- mapM f r ;; Ok (y :: ys)
  end.

(** ** Primitive operators *)

(** ToBoolean. *)
Definition truthy (v : value) : bool :=
  match v with
  | VUndefined | VNull => false
  | VBool b => b
  | VNum n => negb (n =? 0)%Z
  | VStr s => negb (s =? EmptyString)
  | VArr _ | VObj _ => true
  end.

Definition is_number (v : value) : bool :=
  match v with VNum _ => true | _ => false end.

(** [a === b].  Two objects (or arrays) are identical only when they are the
    same object; every comparison the program makes puts values that come
    from different documents on the two sides, so it is [false] there. *)
Definition strict_eq (a b : value) : bool :=
  match a, b with
  | VUndefined, VUndefined => true
  | VNull, VNull => true
  | VBool x, VBool y => Bool.eqb x y
  | VNum x, VNum y => (x =? y)%Z
  | VStr x, VStr y => (x =? y)
  | _, _ => false
  end.

(** [a || b] *)
Definition or_else (a b : value) : value := if truthy a then a else b.

(** ** Decimal numerals *)

Definition string_of_Z (n : Z) : string := NilZero.string_of_int (Z.to_int n).
Definition string_of_nat (n : nat) : string := string_of_Z (Z.of_nat n).

(** ** Property access on objects *)

Fixpoint lookup (o : obj) (k : string) : option value :=
  match o with
  | [] => None
  | (k', v) :: r => if k' =? k then Some v else lookup r k
  end.

(** [o[k]] for an object [o]: [undefined] when [k] is not an own property. *)
Definition get (o : obj) (k : string) : value :=
  match lookup o k with Some v => v | None => VUndefined end.

Definition keys (o : obj) : list string := map fst o.

Definition has (o : obj) (k : string) : bool :=
  match lookup o k with Some _ => true | None => false end.

(** A canonical array index: the decimal numeral, without leading zeros, of
    an integer below 2^32 - 1.  Such keys are enumerated first, in ascending
    numeric order, before the other keys in insertion order. *)
Fixpoint digits_value (s : string) (acc : N) : option N :=
  match s with
  | EmptyString => Some acc
  | String c r =>
      let d := N_of_ascii c in
      if ((48 <=? d) && (d <=? 57))%N
      then digits_value r (10 * acc + (d - 48))%N
      else None
  end.

Definition array_index (k : string) : option N :=
  match k with
  | EmptyString => None
  | _ =>
      match digits_value k 0%N with
      | Some n =>
          if (string_of_Z (Z.of_N n) =? k) && (n <? 4294967295)%N
          then Some n else None
      | None => None
      end
  end.

(** Position of a new array-index key [n] among the existing properties: in
    front of the first property that is not an array index or has a larger
    index. *)
Fixpoint insert_index (n : N) (k : string) (v : value) (o : obj) : obj :=
  match o with
  | [] => [(k, v)]
  | (k', v') :: r =>
      match array_index k' with
      | Some m =>
          if (m <? n)%N then (k', v') :: insert_index n k v r
          else (k, v) :: o
      | None => (k, v) :: o
      end
  end.

Fixpoint replace (o : obj) (k : string) (v : value) : obj :=
  match o with
  | [] => []
  | (k', v') :: r =>
      if k' =? k then (k', v) :: r else (k', v') :: replace r k v
  end.

(** [o[k] = v] on a plain object: an existing property keeps its place.
    An assignment to the key [__proto__] runs the setter of
    [Object.prototype] instead and defines no own property: [set] models
    the assignment for every other key. *)
Definition set (o : obj) (k : string) (v : value) : obj :=
  if has o k then replace o k v
  else match array_index k with
       | Some n => insert_index n k v o
       | None => (o ++ [(k, v)])%list
       end.

(** ** Property access on arbitrary values *)

Definition chars (s : string) : list value :=
  List.map (fun c => VStr (String c EmptyString)) (list_ascii_of_string s).

(** The elements of an array as properties ["0"], ["1"], ... *)
Definition indexed (l : list value) : obj :=
  combine (List.map string_of_nat (seq 0 (List.length l))) l.

(** Own enumerable string-keyed properties: what [Object.entries] lists and
    what an object spread copies. *)
Definition own_entries (v : value) : obj :=
  match v with
  | VObj o => o
  | VArr l => indexed l
  | VStr s => indexed (chars s)
  | _ => []
  end.

Definition element (l : list value) (k : string) : value :=
  if k =? "length" then VNum (Z.of_nat (List.length l))
  else match array_index k with
       | Some i => nth (N.to_nat i) l VUndefined
       | None => VUndefined
       end.

(** [v[k]] for a [v] that is neither [undefined] nor [null]. *)
Definition prop (v : value) (k : string) : value :=
  match v with
  | VObj o => get o k
  | VArr l => element l k
  | VStr s => element (chars s) k
  | _ => VUndefined
  end.

(** [v[k]]: reading a property of [undefined] or [null] throws. *)
Definition member (v : value) (k : string) : result value :=
  match v with
  | VUndefined | VNull => Throw
  | _ => Ok (prop v k)
  end.

(** [v?.[k]] *)
Definition opt_member (v : value) (k : string) : value :=
  match v with
  | VUndefined | VNull => VUndefined
  | _ => prop v k
  end.

(** [{ ...a, ...b }]: the properties are defined one after the other on a
    fresh object. *)
Definition assign (target : obj) (source : obj) : obj :=
  fold_left (fun acc kv => set acc (fst kv) (snd kv)) source target.

Definition spread (a : value) : obj := assign [] (own_entries a).

Definition spread2 (a b : value) : obj :=
  assign (assign [] (own_entries a)) (own_entries b).

(** [[...v]]: only arrays and strings are iterable. *)
Definition iterate (v : value) : result (list value) :=
  match v with
  | VArr l => Ok l
  | VStr s => Ok (chars s)
  | _ => Throw
  end.

(** ** Sorting *)

Section Sort.
Context {A : Type}.
Variable cmp : A -> A -> comparison.

(** [x] goes in front of the first element it does not exceed, so an
    element stays in front of the later elements it ties with. *)
Fixpoint sort_insert (x : A) (l : list A) : list A :=
  match l with
  | [] => [x]
  | y :: r =>
      match cmp x y with
      | Gt => y :: sort_insert x r
      | _ => x :: l
      end
  end.

(** [Array.prototype.sort(cmp)]: the stable sort.  For a consistent
    comparator every stable sorting procedure returns this list. *)
Fixpoint sort (l : list A) : list A :=
  match l with
  | [] => []
  | x :: r => sort_insert x (sort r)
  end.
End Sort.

(** ** Conversion to strings *)

(** [Array.prototype.join]: [undefined] and [null] print as nothing. *)
Definition join_with (str : value -> string) (sep : string) (l : list value)
  : string :=
  String.concat sep
    (map (fun x => match x with
                   | VUndefined | VNull => EmptyString
                   | _ => str x
                   end) l).

(** [String(v)]. *)
Fixpoint String_ (v : value) : string :=
  match v with
  | VUndefined => "undefined"
  | VNull => "null"
  | VBool b => if b then "true" else "false"
  | VNum n => string_of_Z n
  | VStr s => s
  | VArr l =>
      String.concat ","
        (map (fun x => match x with
                       | VUndefined | VNull => EmptyString
                       | _ => String_ x
                       end) l)
  | VObj _ => "[object Object]"
  end.

Definition join (l : list value) (sep : string) : string :=
  join_with String_ sep l.

(** The comparison [Array.prototype.sort()] uses without a comparator:
    [undefined] goes last, the rest is ordered by the code units of its
    string form. *)
Definition default_compare (x y : value) : comparison :=
  match x, y with
  | VUndefined, VUndefined => Eq
  | VUndefined, _ => Gt
  | _, VUndefined => Lt
  | _, _ => String.compare (String_ x) (String_ y)
  end.

(** ** JSON.stringify *)

Definition hex_digit (n : N) : ascii :=
  ascii_of_N (if (n <? 10)%N then 48 + n else 87 + n)%N.

Definition backslash : ascii := ascii_of_N 92.
Definition dquote : ascii := ascii_of_N 34.

(** The two-character escape [\x]. *)
Definition esc (x : string) : string := String backslash x.

(** One code unit inside a JSON string literal. *)
Definition quote_char (c : ascii) : string :=
  let n := N_of_ascii c in
  if (n =? 8)%N then esc "b"
  else if (n =? 9)%N then esc "t"
  else if (n =? 10)%N then esc "n"
  else if (n =? 12)%N then esc "f"
  else if (n =? 13)%N then esc "r"
  else if (n =? 34)%N then esc (String dquote EmptyString)
  else if (n =? 92)%N then esc (String backslash EmptyString)
  else if (n <? 32)%N
       then esc ("u00" ++ String (hex_digit (n / 16))
                            (String (hex_digit (n mod 16)) EmptyString))
  else String c EmptyString.

Fixpoint quote_body (s : string) : string :=
  match s with
  | EmptyString => EmptyString
  | String c r => quote_char c ++ quote_body r
  end.

Definition quote (s : string) : string :=
  String dquote (quote_body s ++ String dquote EmptyString).

(** [JSON.stringify(v)]; [None] is the result [undefined]. *)
Fixpoint JSON_stringify (v : value) : option string :=
  match v with
  | VUndefined => None
  | VNull => Some "null"
  | VBool b => Some (if b then "true" else "false")
  | VNum n => Some (string_of_Z n)
  | VStr s => Some (quote s)
  | VArr l =>
      Some ("[" ++
            String.concat ","
              (map (fun x => match JSON_stringify x with
                             | Some s => s
                             | None => "null"
                             end) l) ++ "]")
  | VObj o =>
      Some ("{" ++
            String.concat ","
              (flat_map (fun kv => match JSON_stringify (snd kv) with
                                   | Some s => [quote (fst kv) ++ ":" ++ s]
                                   | None => []
                                   end) o) ++ "}")
  end.

End JS.

(* ================================================================== *)
(** * src/lib/task-validator.ts                                         *)
(* ================================================================== *)

Module TaskValidator.
Import JS.

(** ** Types of [./types.js] *)

(** Modelled from the spec: the declarations of [src/lib/types.ts] are not
    part of the sources at hand.  The records below follow section 6 of the
    specification ("taskRequirements: [{task: {id}, status}], objectives:
    [{id, ...fields}]") and the way the validator reads them; a field of
    type [unknown] to the validator is a [value], [VUndefined] when the
    field is absent. *)
Record TaskRef := { ref_id : string }.

Record TaskRequirement := {
  req_task : option TaskRef;
  req_status : option (list string)
}.

Record TaskOverride := {
  o_minPlayerLevel : value;
  o_name : value;
  o_wikiLink : value;
  o_map : value;
  o_experience : value;
  o_finishRewards : value;
  o_taskRequirements : option (list TaskRequirement);
  o_objectives : option (list (string * obj));
  o_objectivesAdd : option (list obj);
  o_disabled : value
}.

Record TaskData := {
  t_id : string;
  t_name : string;
  t_minPlayerLevel : value;
  t_wikiLink : value;
  t_map : value;
  t_experience : value;
  t_finishRewards : value;
  t_taskRequirements : option (list TaskRequirement);
  t_objectives : option (list obj)
}.

Inductive DetailStatus := fixed | needed | check | info.

Inductive ValidationStatus := NEEDED | FIXED | REMOVED_FROM_API.

Record ValidationDetail := {
  field : string;
  status : DetailStatus;
  message : string
}.

Record ValidationResult := {
  r_id : string;
  r_name : string;
  r_status : ValidationStatus;
  stillNeeded : bool;
  details : list ValidationDetail
}.

(** The keys [createFieldValidator] is instantiated with. *)
Inductive Field :=
| minPlayerLevel | name | wikiLink | map_ | experience | finishRewards.

Definition field_name (f : Field) : string :=
  match f with
  | minPlayerLevel => "minPlayerLevel"
  | name => "name"
  | wikiLink => "wikiLink"
  | map_ => "map"
  | experience => "experience"
  | finishRewards => "finishRewards"
  end.

(** [override[field]] *)
Definition override_get (o : TaskOverride) (f : Field) : value :=
  match f with
  | minPlayerLevel => o_minPlayerLevel o
  | name => o_name o
  | wikiLink => o_wikiLink o
  | map_ => o_map o
  | experience => o_experience o
  | finishRewards => o_finishRewards o
  end.

(** [apiTask[field]] *)
Definition task_get (t : TaskData) (f : Field) : value :=
  match f with
  | minPlayerLevel => t_minPlayerLevel t
  | name => VStr (t_name t)
  | wikiLink => t_wikiLink t
  | map_ => t_map t
  | experience => t_experience t
  | finishRewards => t_finishRewards t
  end.

Definition DetailStatus_eqb (a b : DetailStatus) : bool :=
  match a, b with
  | fixed, fixed | needed, needed | check, check | info, info => true
  | _, _ => false
  end.

Definition ValidationStatus_eqb (a b : ValidationStatus) : bool :=
  match a, b with
  | NEEDED, NEEDED | FIXED, FIXED
  | REMOVED_FROM_API, REMOVED_FROM_API => true
  | _, _ => false
  end.

(** ** Value normaliser and subset comparator *)

Section Normalizer.

(** [a.localeCompare(b)], by sign. *)
Variable localeCompare : string -> string -> comparison.

Definition sortKey (v : value) : string :=
  match v with
  | VUndefined => "undefined"
  | VNull => "null"
  | VStr _ | VNum _ | VBool _ => String_ v
  | _ =>
      match JSON_stringify v with
      | Some json => json
      | None => String_ v
      end
  end.

(** The array branch of [normalizeValue], after the elements have been
    normalised: pair with the sort key, sort by key, drop the key. *)
Definition sort_by_key (normalized : list value) : list value :=
  List.map snd
    (sort (fun a b => localeCompare (fst a) (fst b))
       (List.map (fun item => (sortKey item, item)) normalized)).

(** The object branch reads [obj[key]] for the sorted keys; [nobj] holds
    the properties of [obj] with their values already normalised, so that
    the recursion stays on the components of the value. *)
Fixpoint normalizeValue (v : value) : value :=
  match v with
  | VArr l => VArr (sort_by_key (List.map normalizeValue l))
  | VObj o =>
      let nobj := List.map (fun kv => (fst kv, normalizeValue (snd kv))) o in
      let ks := sort String.compare (keys o) in
      VObj (fold_left (fun normalized key => set normalized key (get nobj key))
              ks [])
  | _ => v
  end.

Definition option_string_eqb (a b : option string) : bool :=
  match a, b with
  | Some x, Some y => x =? y
  | None, None => true
  | _, _ => false
  end.

Definition valuesEqual (a b : value) : bool :=
  match a, b with
  | VUndefined, VUndefined => true
  | _, _ =>
      option_string_eqb (JSON_stringify (normalizeValue a))
                        (JSON_stringify (normalizeValue b))
  end.

(** The loop over [Object.keys(overrideObject)] visits the properties of
    the override in order and stops at the first that is not satisfied. *)
Fixpoint compareSubset (overrideValue apiValue : value) : bool :=
  match overrideValue with
  | VUndefined => true
  | VObj overrideObject =>
      match apiValue with
      | VObj apiObject =>
          forallb (fun kv => compareSubset (snd kv) (get apiObject (fst kv)))
                  overrideObject
      | _ => false
      end
  | _ => valuesEqual overrideValue apiValue
  end.

(** ** Field validators *)

Definition formatValue (v : value) : string :=
  match v with
  | VUndefined | VNull => "undefined"
  | VStr s => "'" ++ s ++ "'"
  | VArr _ | VObj _ =>
      match JSON_stringify v with
      | Some s => s
      | None => "undefined"
      end
  | _ => String_ v
  end.

Definition FieldValidator : Type :=
  TaskOverride -> TaskData -> option ValidationDetail.

Definition createFieldValidator (f : Field) : FieldValidator :=
  fun override apiTask =>
    let overrideValue := override_get override f in
    match overrideValue with
    | VUndefined => None
    | _ =>
        let apiValue := task_get apiTask f in
        let isMatch := compareSubset overrideValue apiValue in
        Some {| field := field_name f;
                status := if isMatch then fixed else needed;
                message :=
                  if isMatch
                  then field_name f ++ ": " ++ formatValue apiValue
                       ++ " - FIXED IN API"
                  else field_name f ++ ": API=" ++ formatValue apiValue
                       ++ ", Override=" ++ formatValue overrideValue
                       ++ " - STILL NEEDED" |}
    end.

(** [!r.status || !r.status.includes('active')] *)
Definition not_active (r : TaskRequirement) : bool :=
  match req_status r with
  | None => true
  | Some st => negb (existsb (String.eqb "active") st)
  end.

(** [r.task?.id] *)
Definition req_task_id (r : TaskRequirement) : value :=
  match req_task r with
  | Some t => VStr (ref_id t)
  | None => VUndefined
  end.

Definition stringify_ids (ids : list value) : string :=
  match JSON_stringify (VArr ids) with
  | Some s => s
  | None => "undefined"
  end.

Definition validateTaskRequirements : FieldValidator :=
  fun override apiTask =>
    match o_taskRequirements override with
    | None => None
    | Some overrideReqs =>
        let apiReqs :=
          filter not_active
            (match t_taskRequirements apiTask with
             | Some l => l
             | None => []
             end) in
        if (List.length apiReqs =? 0)%nat && (0 <? List.length overrideReqs)%nat then
          Some {| field := "taskRequirements";
                  status := needed;
                  message :=
                    "taskRequirements: API=[] (empty), Override has "
                    ++ string_of_nat (List.length overrideReqs)
                    ++ " requirement(s) - STILL NEEDED" |}
        else if (0 <? List.length apiReqs)%nat then
          let apiReqIds := sort default_compare (List.map req_task_id apiReqs) in
          let overrideReqIds :=
            sort default_compare (List.map req_task_id overrideReqs) in
          if negb (stringify_ids apiReqIds =? stringify_ids overrideReqIds) then
            Some {| field := "taskRequirements";
                    status := needed;
                    message :=
                      "taskRequirements: API has different requirements ("
                      ++ join apiReqIds ", " ++ ") vs Override ("
                      ++ join overrideReqIds ", " ++ ") - NEEDS REVIEW" |}
          else
            Some {| field := "taskRequirements";
                    status := fixed;
                    message := "taskRequirements: FIXED IN API" |}
        else None
    end.

(** All field validators in order. *)
Definition FIELD_VALIDATORS : list FieldValidator :=
  [ createFieldValidator minPlayerLevel;
    createFieldValidator name;
    createFieldValidator wikiLink;
    createFieldValidator map_;
    createFieldValidator experience;
    createFieldValidator finishRewards;
    validateTaskRequirements ].

(** ** Validation of one override *)

(** [apiTask.objectives?.find(pred)] *)
Definition find_objective (apiTask : TaskData) (pred : obj -> bool)
  : option obj :=
  match t_objectives apiTask with
  | Some objs => find pred objs
  | None => None
  end.

(** The details the loop over [Object.entries(override.objectives)] pushes
    for one [objId, objOverride] pair. *)
Definition objective_details (apiTask : TaskData)
  (entry : string * obj) : list ValidationDetail :=
  let (objId, objOverride) := entry in
  match find_objective apiTask (fun o => strict_eq (get o "id") (VStr objId)) with
  | None =>
      [ {| field := "objective:" ++ objId;
           status := check;
           message := "objective " ++ objId
                      ++ ": Not found in API - CHECK MANUALLY" |} ]
  | Some apiObj =>
      flat_map
        (fun fv : string * value =>
           let (fld, overrideValue) := fv in
           match overrideValue with
           | VUndefined => []
           | _ =>
               let apiValue := get apiObj fld in
               let isMatch := compareSubset overrideValue apiValue in
               [ {| field := "objective:" ++ objId ++ ":" ++ fld;
                    status := if isMatch then fixed else needed;
                    message :=
                      if isMatch
                      then "objective " ++ fld ++ ": " ++ formatValue apiValue
                           ++ " - FIXED IN API"
                      else "objective " ++ fld ++ ": API="
                           ++ formatValue apiValue ++ ", Override="
                           ++ formatValue overrideValue
                           ++ " - STILL NEEDED" |} ]
           end)
        objOverride
  end.

(** The detail pushed for one entry of [override.objectivesAdd]. *)
Definition added_detail (apiTask : TaskData) (added : obj) : ValidationDetail :=
  let apiMatch :=
    find_objective apiTask
      (fun o => strict_eq (get o "id") (get added "id")
                || strict_eq (get o "description") (get added "description")) in
  let label := String_ (or_else (get added "id") (get added "description")) in
  match apiMatch with
  | Some _ =>
      {| field := "objectivesAdd:" ++ label;
         status := fixed;
         message := "added objective '" ++ String_ (get added "description")
                    ++ "': NOW IN API - MOVE TO OBJECTIVES OR REMOVE" |}
  | None =>
      {| field := "objectivesAdd:" ++ label;
         status := needed;
         message := "added objective '" ++ String_ (get added "description")
                    ++ "': Still missing from API - STILL NEEDED" |}
  end.

(** [d.status === 'needed' || d.status === 'check'] *)
Definition needs (d : ValidationDetail) : bool :=
  DetailStatus_eqb (status d) needed || DetailStatus_eqb (status d) check.

(** The [details] array at the point where the overall status is decided. *)
Definition collect_details (override : TaskOverride) (apiTask : TaskData)
  : list ValidationDetail :=
  let fromValidators :=
    flat_map (fun validator : FieldValidator =>
                match validator override apiTask with
                | Some result => [result]
                | None => []
                end) FIELD_VALIDATORS in
  let fromObjectives :=
    match o_objectives override with
    | Some objectives => flat_map (objective_details apiTask) objectives
    | None => []
    end in
  let fromAdded :=
    match o_objectivesAdd override with
    | Some objectivesAdd => List.map (added_detail apiTask) objectivesAdd
    | None => []
    end in
  (fromValidators ++ fromObjectives ++ fromAdded)%list.

Definition validateTaskOverride (taskId : string) (override : TaskOverride)
  (apiTasks : list TaskData) : ValidationResult :=
  match find (fun t => t_id t =? taskId) apiTasks with
  | None =>
      {| r_id := taskId;
         r_name := "Unknown";
         r_status := REMOVED_FROM_API;
         stillNeeded := false;
         details :=
           [ {| field := "task";
                status := info;
                message :=
                  "Task not found in API - has been removed from tarkov.dev" |} ] |}
  | Some apiTask =>
      if strict_eq (o_disabled override) (VBool true) then
        {| r_id := taskId;
           r_name := t_name apiTask;
           r_status := REMOVED_FROM_API;
           stillNeeded := false;
           details :=
             [ {| field := "disabled";
                  status := info;
                  message :=
                    "Task still in API but marked as disabled - should be removed from API or override can be removed" |} ] |}
      else
        let details := collect_details override apiTask in
        let needsOverride := existsb needs details in
        {| r_id := taskId;
           r_name := t_name apiTask;
           r_status := if needsOverride then NEEDED else FIXED;
           stillNeeded := needsOverride;
           details := details |}
  end.

Definition validateAllOverrides (overrides : list (string * TaskOverride))
  (apiTasks : list TaskData) : list ValidationResult :=
  List.map (fun e => validateTaskOverride (fst e) (snd e) apiTasks) overrides.

End Normalizer.

Record Categories := {
  c_stillNeeded : list ValidationResult;
  c_fixed : list ValidationResult;
  c_removedFromApi : list ValidationResult
}.

Definition categorizeResults (results : list ValidationResult) : Categories :=
  {| c_stillNeeded := filter stillNeeded results;
     c_fixed := filter (fun r => ValidationStatus_eqb (r_status r) FIXED) results;
     c_removedFromApi :=
       filter (fun r => ValidationStatus_eqb (r_status r) REMOVED_FROM_API)
              results |}.

End TaskValidator.

(* ================================================================== *)
(** * The consumer example: applying an overlay to tasks               *)
(* ================================================================== *)

Module ApplyOverlay.
Import JS.

(** One iteration of the loop over [Object.entries(taskOverride)]. *)
Definition apply_field (result : obj) (kv : string * value) : obj :=
  let (key, value) := kv in
  if (key =? "objectives") || (key =? "objectivesAdd") then result
  else if (key =? "minPlayerLevel") && is_number value then
    set result "minPlayerLevel" value
  else if (key =? "map") && truthy value then
    set result "map" value
  else set result key value.

(** The callback of [task.objectives.map]. *)
Definition patch_objective (taskOverride : value) (objective : value)
  : result value :=
  id <- member objective "id" ;;
  let patch := prop (prop taskOverride "objectives") (String_ id) in
  if negb (truthy patch) then Ok objective
  else Ok (VObj (spread2 objective patch)).

(** [task] and [overlay] are objects; [null] is [None]. *)
Definition applyTaskOverlay (task : obj) (overlay : obj)
  : result (option obj) :=
  let taskOverride :=
    opt_member (get overlay "tasks") (String_ (get task "id")) in
  if negb (truthy taskOverride) then Ok (Some task)
  else if strict_eq (prop taskOverride "disabled") (VBool true) then Ok None
  else
    let result := spread (VObj task) in
    let result := fold_left apply_field (own_entries taskOverride) result in
    result <-
      (if truthy (prop taskOverride "objectives")
          && truthy (get task "objectives")
       then
         match get task "objectives" with
         | VArr objectives =>
             patched <- mapM (patch_objective taskOverride) objectives ;;
             Ok (set result "objectives" (VArr patched))
         | _ => Throw
         end
       else Ok result) ;;
    result <-
      (if truthy (prop taskOverride "objectivesAdd") then
         old <- iterate (or_else (get result "objectives") (VArr [])) ;;
         added <- iterate (prop taskOverride "objectivesAdd") ;;
         Ok (set result "objectives" (VArr (old ++ added)))
       else Ok result) ;;
    Ok (Some result).

Fixpoint non_null (l : list (option obj)) : list obj :=
  match l with
  | [] => []
  | Some t :: r => t :: non_null r
  | None :: r => non_null r
  end.

(** [tasks.map(...).filter(task => task !== null)] *)
Definition applyOverlayToTasks (tasks : list obj) (overlay : obj)
  : result (list obj) :=
  mapped <- mapM (fun task => applyTaskOverlay task overlay) tasks ;;
  Ok (non_null mapped).

End ApplyOverlay.

(* ================================================================== *)
(** * Notions the properties are stated with                            *)
(* ================================================================== *)

Module Spec.
Import JS TaskValidator.

(** ** JSON documents *)

Fixpoint distinct (l : list string) : bool :=
  match l with
  | [] => true
  | x :: r => negb (existsb (String.eqb x) r) && distinct r
  end.

(** A JSON-compatible value: no object lists a key twice. *)
Fixpoint well_formed (v : value) : bool :=
  match v with
  | VArr l => forallb well_formed l
  | VObj o => distinct (List.map fst o)
              && forallb (fun kv => well_formed (snd kv)) o
  | _ => true
  end.

Definition is_object (v : value) : bool :=
  match v with VObj _ => true | _ => false end.

(** ** Subset comparison *)

(** [null], a scalar or an array. *)
Definition exact_kind (v : value) : bool :=
  match v with
  | VNull | VBool _ | VNum _ | VStr _ | VArr _ => true
  | _ => false
  end.

(** The reference definition of section 4.2 of the specification, in its
    words: nothing claimed; exact match for [null], scalars and arrays;
    key by key for objects. *)
Inductive satisfies (localeCompare : string -> string -> comparison)
  : value -> value -> Prop :=
| satisfies_undefined (liveValue : value) :
    satisfies localeCompare VUndefined liveValue
| satisfies_exact (overrideValue liveValue : value) :
    exact_kind overrideValue = true ->
    valuesEqual localeCompare overrideValue liveValue = true ->
    satisfies localeCompare overrideValue liveValue
| satisfies_object (overrideObject liveObject : obj) :
    (forall key, In key (keys overrideObject) ->
                 satisfies localeCompare (get overrideObject key)
                                         (get liveObject key)) ->
    satisfies localeCompare (VObj overrideObject) (VObj liveObject).

(** ** Normalisation *)

(** [x] may stand in front of [y] in a list sorted with [cmp]. *)
Definition le {A : Type} (cmp : A -> A -> comparison) (x y : A) : Prop :=
  cmp x y <> Gt.

(** Elements whose sort keys tie under [localeCompare] are equal. *)
Definition ties_are_equal (localeCompare : string -> string -> comparison)
  (l : list value) : Prop :=
  forall x y, In x l -> In y l ->
              localeCompare (sortKey x) (sortKey y) = Eq -> x = y.

(** ** Task requirements *)

(** The live requirements the validator compares against. *)
Definition live_requirements (apiTask : TaskData) : list TaskRequirement :=
  filter not_active
    (match t_taskRequirements apiTask with Some l => l | None => [] end).

Definition requirement_ids (l : list TaskRequirement) : list value :=
  List.map req_task_id l.

(** The override that declares an empty [taskRequirements] list and nothing
    else. *)
Definition empty_requirements_override : TaskOverride :=
  {| o_minPlayerLevel := VUndefined;
     o_name := VUndefined;
     o_wikiLink := VUndefined;
     o_map := VUndefined;
     o_experience := VUndefined;
     o_finishRewards := VUndefined;
     o_taskRequirements := Some [];
     o_objectives := None;
     o_objectivesAdd := None;
     o_disabled := VUndefined |}.

(** ** Applying an overlay *)

(** [taskOverride] of [applyTaskOverlay]. *)
Definition task_override (overlay task : obj) : value :=
  opt_member (get overlay "tasks") (String_ (get task "id")).

(** The task has an override with [disabled === true]. *)
Definition disabled_for (overlay task : obj) : bool :=
  truthy (task_override overlay task)
  && strict_eq (prop (task_override overlay task) "disabled") (VBool true).

(** [Task.objectives] is absent or a list of objects. *)
Definition typed_task (task : obj) : bool :=
  match get task "objectives" with
  | VUndefined => true
  | VArr l => forallb is_object l
  | _ => false
  end.

(** [TaskOverride.objectives] is absent or a map of objects and
    [TaskOverride.objectivesAdd] is absent or a list. *)
Definition typed_patch (ov : obj) : bool :=
  match get ov "objectives" with
  | VUndefined => true
  | VObj m => forallb (fun kv => is_object (snd kv)) m
  | _ => false
  end
  && match get ov "objectivesAdd" with
     | VUndefined | VArr _ => true
     | _ => false
     end.

(** [task] and the entry of [overlay.tasks] for it, if any, inhabit the
    interfaces [Task] and [TaskOverride]. *)
Definition typed_for (overlay task : obj) : bool :=
  well_formed (VObj task) && typed_task task
  && match get overlay "tasks" with
     | VUndefined => true
     | VObj m =>
         match lookup m (String_ (get task "id")) with
         | None => true
         | Some (VObj ov) => typed_patch ov
         | Some _ => false
         end
     | _ => false
     end.

(** The patch map of an override; none is an empty one. *)
Definition patch_map (v : value) : obj :=
  match v with VObj m => m | _ => [] end.

(** The records of [objectivesAdd]; none when the list is absent. *)
Definition appended (v : value) : list value :=
  match v with VArr l => l | _ => [] end.

(** [ob'] is the shallow merge of [ob] with [p]: the properties of [ob],
    overwritten and extended by those of [p]. *)
Definition merged (ob p ob' : obj) : Prop :=
  forall k, lookup ob' k
            = match lookup p k with Some v => Some v | None => lookup ob k end.

(** [objective'] is [objective] merged with the patch registered under its
    id, or [objective] itself when none is. *)
Definition patched (patches : obj) (objective objective' : value) : Prop :=
  match objective with
  | VObj ob =>
      match lookup patches (String_ (get ob "id")) with
      | Some (VObj p) => exists ob', objective' = VObj ob' /\ merged ob p ob'
      | _ => objective' = objective
      end
  | _ => objective' = objective
  end.

End Spec.

(* ================================================================== *)
(** * Auxiliary definitions of the proofs                               *)
(* ================================================================== *)

Module Aux.
Import JS TaskValidator ApplyOverlay Spec.

(** ** Reading a JSON string literal back *)

Definition unhex (c : ascii) : N :=
  let n := N_of_ascii c in
  if (n <? 58)%N then n - 48 else n - 87.

(** Reads back one code unit of a string literal; the closing quote is not
    a code unit. *)
Definition read_char (s : string) : option (ascii * string) :=
  match s with
  | EmptyString => None
  | String c r =>
      if (N_of_ascii c =? 34)%N then None
      else if (N_of_ascii c =? 92)%N then
        match r with
        | EmptyString => None
        | String e r' =>
            let n := N_of_ascii e in
            if (n =? 98)%N then Some (ascii_of_N 8, r')
            else if (n =? 116)%N then Some (ascii_of_N 9, r')
            else if (n =? 110)%N then Some (ascii_of_N 10, r')
            else if (n =? 102)%N then Some (ascii_of_N 12, r')
            else if (n =? 114)%N then Some (ascii_of_N 13, r')
            else if (n =? 117)%N then
              match r' with
              | String _ (String _ (String h (String l r''))) =>
                  Some (ascii_of_N (16 * unhex h + unhex l), r'')
              | _ => None
              end
            else Some (e, r')
        end
      else Some (c, r)
  end.

(** The identifiers [r.task?.id] produces. *)
Definition id_value (v : value) : Prop :=
  match v with VStr _ | VUndefined => True | _ => False end.

(** The text of an array element in [JSON.stringify]. *)
Definition element_text (v : value) : string :=
  match JSON_stringify v with Some s => s | None => "null" end.

(** The text that follows the first element of an array. *)
Fixpoint closing (l : list string) : string :=
  match l with
  | [] => "]"
  | x :: r => "," ++ x ++ closing r
  end.

Definition is_undefined (v : value) : bool :=
  match v with VUndefined => true | _ => false end.

(** ** The normaliser *)

(** The comparator handed to [sort]: [a.key.localeCompare(b.key)]. *)
Definition by_key (localeCompare : string -> string -> comparison)
  (a b : string * value) : comparison :=
  localeCompare (fst a) (fst b).

Definition with_key (item : value) : string * value := (sortKey item, item).

Definition map_values (f : value -> value) (o : obj) : obj :=
  List.map (fun kv => (fst kv, f (snd kv))) o.

(** ** The patch applier *)

(** The keys the loop over the entries of the override skips. *)
Definition handled_separately (key : string) : bool :=
  (key =? "objectives") || (key =? "objectivesAdd").

(** What the callback of [task.objectives.map] returns for an objective
    that is an object, given the patch map. *)
Definition patch_total (patches : obj) (objective : value) : value :=
  match objective with
  | VObj ob =>
      let patch := get patches (String_ (get ob "id")) in
      if negb (truthy patch) then objective
      else VObj (spread2 objective patch)
  | _ => objective
  end.

(** The [objectives] property of the corrected task. *)
Definition final_objectives (task ov : obj) : value :=
  let patched :=
    match get task "objectives" with
    | VArr objs =>
        VArr (List.map (patch_total (patch_map (get ov "objectives"))) objs)
    | other => other
    end in
  match get ov "objectivesAdd" with
  | VArr adds => VArr (appended patched ++ adds)
  | _ => patched
  end.

End Aux.

(* ================================================================== *)
(** * Sample data                                                       *)
(* ================================================================== *)

Module Samples.
Import JS TaskValidator Spec.

(** A live task whose only requirement is already active. *)
Definition active_task : TaskData :=
  {| t_id := "t1";
     t_name := "Debut";
     t_minPlayerLevel := VNum 1;
     t_wikiLink := VUndefined;
     t_map := VUndefined;
     t_experience := VUndefined;
     t_finishRewards := VUndefined;
     t_taskRequirements :=
       Some [ {| req_task := Some {| ref_id := "X" |};
                 req_status := Some ["active"; "complete"] |} ];
     t_objectives := None |}.

(** A live task that requires Y, and X which is active. *)
Definition requiring_task : TaskData :=
  {| t_id := "t2";
     t_name := "Checking";
     t_minPlayerLevel := VNum 2;
     t_wikiLink := VUndefined;
     t_map := VUndefined;
     t_experience := VUndefined;
     t_finishRewards := VUndefined;
     t_taskRequirements :=
       Some [ {| req_task := Some {| ref_id := "Y" |};
                 req_status := Some ["complete"] |};
              {| req_task := Some {| ref_id := "X" |};
                 req_status := Some ["active"; "complete"] |} ];
     t_objectives := None |}.

Definition requires (ids : list string) : TaskOverride :=
  {| o_minPlayerLevel := VUndefined;
     o_name := VUndefined;
     o_wikiLink := VUndefined;
     o_map := VUndefined;
     o_experience := VUndefined;
     o_finishRewards := VUndefined;
     o_taskRequirements :=
       Some (List.map (fun i => {| req_task := Some {| ref_id := i |};
                                   req_status := None |}) ids);
     o_objectives := None;
     o_objectivesAdd := None;
     o_disabled := VUndefined |}.

Definition objective_a : obj := [("id", VStr "a"); ("count", VNum 1)].
Definition objective_b : obj := [("id", VStr "b"); ("count", VNum 2)].
Definition objective_z : obj := [("id", VStr "z"); ("description", VStr "New")].

Definition task_t1 : obj :=
  [("id", VStr "t1"); ("name", VStr "Debut"); ("minPlayerLevel", VNum 3);
   ("objectives", VArr [VObj objective_a; VObj objective_b])].

Definition task_t2 : obj := [("id", VStr "t2"); ("name", VStr "Checking")].

Definition task_t3 : obj := [("id", VStr "t3"); ("name", VStr "Shortage")].

Definition patch_t1 : obj :=
  [("minPlayerLevel", VNum 9); ("disabled", VBool false);
   ("objectives", VObj [("b", VObj [("count", VNum 5)])]);
   ("objectivesAdd", VArr [VObj objective_z])].

Definition overlay_tasks : obj :=
  [("t1", VObj patch_t1); ("t2", VObj [("disabled", VBool true)])].

Definition overlay : obj := [("tasks", VObj overlay_tasks)].

Definition document : value :=
  VObj [("z", VArr [VStr "b"; VNull; VStr "a"]); ("10", VNum 1);
        ("9", VObj [("k", VBool true)])].

Definition override_map : value :=
  VObj [("id", VStr "m1"); ("tags", VArr [VNum 2; VNum 1])].

Definition live_map : value :=
  VObj [("name", VStr "Customs"); ("tags", VArr [VNum 1; VNum 2]);
        ("id", VStr "m1")].

(** A live task with the given player level and no requirement. *)
Definition live_task (level : Z) : TaskData :=
  {| t_id := "t1";
     t_name := "Debut";
     t_minPlayerLevel := VNum level;
     t_wikiLink := VUndefined;
     t_map := VUndefined;
     t_experience := VUndefined;
     t_finishRewards := VUndefined;
     t_taskRequirements := Some [];
     t_objectives := None |}.

(** The override [{minPlayerLevel: level}]. *)
Definition level_override (level : Z) : TaskOverride :=
  {| o_minPlayerLevel := VNum level;
     o_name := VUndefined;
     o_wikiLink := VUndefined;
     o_map := VUndefined;
     o_experience := VUndefined;
     o_finishRewards := VUndefined;
     o_taskRequirements := None;
     o_objectives := None;
     o_objectivesAdd := None;
     o_disabled := VUndefined |}.

End Samples.

(* ================================================================== *)
(** * The check-overrides script: additions and edition references     *)
(* ================================================================== *)

Module CheckOverrides.
Import JS TaskValidator.

(** ** Edition references *)

Record EditionData := {
  e_id : string;
  e_title : option string;
  exclusiveTaskIds : option (list string);
  excludedTaskIds : option (list string)
}.

Inductive ReferenceKind := exclusive | excluded.

Record EditionTaskReference := {
  editionId : string;
  editionTitle : option string;
  taskId : string;
  kind : ReferenceKind
}.

(** [ids ?? []] *)
Definition or_empty {A} (ids : option (list A)) : list A :=
  match ids with Some l => l | None => [] end.

(** One of the two inner loops: the ids of the list that the set of live
    ids does not have. *)
Definition missing_references (apiTaskIds : list string)
  (edition : EditionData) (k : ReferenceKind) (ids : option (list string))
  : list EditionTaskReference :=
  flat_map
    (fun taskId =>
       if negb (existsb (String.eqb taskId) apiTaskIds)
       then [ {| editionId := e_id edition;
                 editionTitle := e_title edition;
                 taskId := taskId;
                 kind := k |} ]
       else [])
    (or_empty ids).

(** [editions] is the record of editions, a property per edition. *)
Definition checkEditionTaskReferences
  (editions : list (string * EditionData)) (apiTasks : list TaskData)
  : list EditionTaskReference :=
  let apiTaskIds := List.map t_id apiTasks in
  flat_map
    (fun entry =>
       let edition := snd entry in
       (missing_references apiTaskIds edition exclusive
          (exclusiveTaskIds edition)
        ++ missing_references apiTaskIds edition excluded
             (excludedTaskIds edition))%list)
    editions.

(** ** Task additions *)

(** A [Map] with string keys: entries in insertion order. *)
Definition Map (A : Type) : Type := list (string * A).

Fixpoint map_get {A} (m : Map A) (k : string) : option A :=
  match m with
  | [] => None
  | (k', v) :: r => if k' =? k then Some v else map_get r k
  end.

Fixpoint map_set {A} (m : Map A) (k : string) (v : A) : Map A :=
  match m with
  | [] => [(k, v)]
  | (k', v') :: r =>
      if k' =? k then (k', v) :: r else (k', v') :: map_set r k v
  end.

(** Modelled from the spec: the declaration of [TaskAddition] in
    [src/lib/types.ts] is not part of the sources at hand; an addition is a
    record describing a task the API is missing, and the record has the two
    fields [checkTaskAdditions] reads. *)
Record TaskAddition := {
  a_name : string;
  a_wikiLink : value
}.

Inductive AdditionStatus := RESOLVED | MISSING | CHECK.

Record AdditionResult := {
  ar_key : string;
  ar_name : string;
  ar_status : AdditionStatus;
  ar_message : string
}.

Record Indexes := {
  byWikiLink : Map TaskData;
  byName : Map (list TaskData)
}.

(** [s.replace(/\/$/, '')] *)
Fixpoint strip_trailing_slash (s : string) : string :=
  match s with
  | EmptyString => EmptyString
  | String c r =>
      match r with
      | EmptyString => if (N_of_ascii c =? 47)%N then EmptyString else s
      | _ => String c (strip_trailing_slash r)
      end
  end.

Section Builtins.

(** [String.prototype.trim], [String.prototype.toLowerCase] and
    [s.replace(/\s+/g, ' ')]. *)
Variable trim : string -> string.
Variable toLowerCase : string -> string.
Variable collapse_whitespace : string -> string.

(** A link that is truthy but not a string has no [trim] to call. *)
Definition normalizeWikiLink (link : value) : result (option string) :=
  if negb (truthy link) then Ok None
  else match link with
       | VStr s => Ok (Some (strip_trailing_slash (toLowerCase (trim s))))
       | _ => Throw
       end.

(** [name] is a string, as the declared types have it. *)
Definition normalizeName (name : string) : string :=
  collapse_whitespace (toLowerCase (trim name)).

(** One iteration of the loop of [buildApiIndexes]. *)
Definition index_task (idx : Indexes) (task : TaskData) : result Indexes :=
  wikiKey <- normalizeWikiLink (t_wikiLink task) ;;
  let links :=
    match wikiKey with
    | Some k => if negb (k =? EmptyString)
                then map_set (byWikiLink idx) k task
                else byWikiLink idx
    | None => byWikiLink idx
    end in
  let nameKey := normalizeName (t_name task) in
  let matches := or_empty (map_get (byName idx) nameKey) in
  Ok {| byWikiLink := links;
        byName := map_set (byName idx) nameKey (matches ++ [task])%list |}.

Definition buildApiIndexes (apiTasks : list TaskData) : result Indexes :=
  fold_left (fun acc task => idx <- acc ;; index_task idx task) apiTasks
    (Ok {| byWikiLink := []; byName := [] |}).

(** The callback of [Object.entries(additions).map]. *)
Definition check_addition (idx : Indexes) (entry : string * TaskAddition)
  : result AdditionResult :=
  let (key, addition) := entry in
  wikiKey <- normalizeWikiLink (a_wikiLink addition) ;;
  let wikiMatch :=
    match wikiKey with
    | Some k => if negb (k =? EmptyString) then map_get (byWikiLink idx) k
                else None
    | None => None
    end in
  match wikiMatch with
  | Some task =>
      Ok {| ar_key := key;
            ar_name := a_name addition;
            ar_status := RESOLVED;
            ar_message := "Matched API task '" ++ t_name task ++ "' ("
                          ++ t_id task ++ ") by wikiLink - RESOLVED" |}
  | None =>
      let nameKey := normalizeName (a_name addition) in
      let nameMatches := or_empty (map_get (byName idx) nameKey) in
      match nameMatches with
      | [task] =>
          Ok {| ar_key := key;
                ar_name := a_name addition;
                ar_status := CHECK;
                ar_message := "Matched API task '" ++ t_name task ++ "' ("
                              ++ t_id task ++ ") by name only - NEEDS REVIEW" |}
      | _ :: _ :: _ =>
          let ids := String.concat ", " (List.map t_id nameMatches) in
          Ok {| ar_key := key;
                ar_name := a_name addition;
                ar_status := CHECK;
                ar_message := "Multiple API tasks share this name (" ++ ids
                              ++ ") - NEEDS REVIEW" |}
      | [] =>
          Ok {| ar_key := key;
                ar_name := a_name addition;
                ar_status := MISSING;
                ar_message := "Still missing from API - STILL NEEDED" |}
      end
  end.

Definition checkTaskAdditions (additions : list (string * TaskAddition))
  (apiTasks : list TaskData) : result (list AdditionResult) :=
  idx <- buildApiIndexes apiTasks ;;
  mapM (check_addition idx) additions.

End Builtins.

End CheckOverrides.

(* ================================================================== *)
(** * Notions of the further properties                                 *)
(* ================================================================== *)

Module Notions.
Import JS TaskValidator CheckOverrides.

(** ** Values *)

(** [null], a boolean, a number or a string. *)
Definition is_scalar (v : value) : bool :=
  match v with
  | VNull | VBool _ | VNum _ | VStr _ => true
  | _ => false
  end.

(** The first code unit of a decimal numeral: a digit or the sign. *)
Definition numeral_head (c : ascii) : bool :=
  let n := N_of_ascii c in
  (n =? 45)%N || ((48 <=? n) && (n <=? 57))%N.

(** [undefined] or [null]. *)
Definition nullish (v : value) : bool :=
  match v with VUndefined | VNull => true | _ => false end.

(** Arrays and strings: the values an array spread accepts. *)
Definition iterable (v : value) : bool :=
  match v with VArr _ | VStr _ => true | _ => false end.

(** ** Reconciliation *)

(** The objectives of a live task; none when the list is absent. *)
Definition live_objectives (apiTask : TaskData) : list obj :=
  match t_objectives apiTask with Some l => l | None => [] end.

(** [o] is what [apiTask.objectives?.find] looks for when checking the
    addition [added]: same id or same description. *)
Definition matches_added (added o : obj) : bool :=
  strict_eq (get o "id") (get added "id")
  || strict_eq (get o "description") (get added "description").

(** The invariant [validateTaskOverride] gives its results. *)
Definition coherent (r : ValidationResult) : Prop :=
  stillNeeded r = true <-> r_status r = NEEDED.

(** ** Edition references and additions *)

(** Every id the edition refers to, in either list. *)
Definition referenced_ids (edition : EditionData) : list string :=
  (or_empty (exclusiveTaskIds edition)
   ++ or_empty (excludedTaskIds edition))%list.

(** The ids of [edition] under [k]. *)
Definition ids_of_kind (edition : EditionData) (k : ReferenceKind)
  : list string :=
  match k with
  | exclusive => or_empty (exclusiveTaskIds edition)
  | excluded => or_empty (excludedTaskIds edition)
  end.

Section Keys.
Variable trim : string -> string.
Variable toLowerCase : string -> string.
Variable collapse_whitespace : string -> string.

(** The key under which a link is indexed and looked up: the normalised
    link when it is a non-empty string. *)
Definition link_key (link : value) : option string :=
  match normalizeWikiLink trim toLowerCase link with
  | Ok (Some k) => if negb (k =? EmptyString) then Some k else None
  | _ => None
  end.

Definition same_link (k : string) (t : TaskData) : bool :=
  match link_key (t_wikiLink t) with
  | Some k' => k' =? k
  | None => false
  end.

Definition same_name (n : string) (t : TaskData) : bool :=
  normalizeName trim toLowerCase collapse_whitespace (t_name t) =? n.

(** The indexes hold what [buildApiIndexes] has seen of [tasks]: per link
    the last task with it, per name the tasks with it in order. *)
Definition indexes_of (tasks : list TaskData) (idx : Indexes) : Prop :=
  (forall k, map_get (byWikiLink idx) k = find (same_link k) (rev tasks))
  /\ (forall n, map_get (byName idx) n
                = match filter (same_name n) tasks with
                  | [] => None
                  | l => Some l
                  end).

(** A live task shares the link of the addition. *)
Definition link_resolved (apiTasks : list TaskData) (a : TaskAddition)
  : Prop :=
  exists k t, link_key (a_wikiLink a) = Some k
              /\ In t apiTasks /\ link_key (t_wikiLink t) = Some k.

(** A live task shares the name of the addition, up to normalisation. *)
Definition name_matched (apiTasks : list TaskData) (a : TaskAddition)
  : Prop :=
  exists t, In t apiTasks
            /\ normalizeName trim toLowerCase collapse_whitespace (t_name t)
               = normalizeName trim toLowerCase collapse_whitespace
                   (a_name a).
End Keys.

End Notions.

(* ================================================================== *)
(** * Further sample data                                               *)
(* ================================================================== *)

Module MoreSamples.
Import JS TaskValidator CheckOverrides Samples.

(** A live task with one objective. *)
Definition task_with_objective : TaskData :=
  {| t_id := "t1";
     t_name := "Debut";
     t_minPlayerLevel := VNum 1;
     t_wikiLink := VStr "https://wiki/Debut";
     t_map := VUndefined;
     t_experience := VUndefined;
     t_finishRewards := VUndefined;
     t_taskRequirements := None;
     t_objectives := Some [objective_a] |}.

(** The override [{objectives: {b: {count: 5}}, objectivesAdd: [z]}]. *)
Definition objective_override : TaskOverride :=
  {| o_minPlayerLevel := VUndefined;
     o_name := VUndefined;
     o_wikiLink := VUndefined;
     o_map := VUndefined;
     o_experience := VUndefined;
     o_finishRewards := VUndefined;
     o_taskRequirements := None;
     o_objectives := Some [("b", [("count", VNum 5)])];
     o_objectivesAdd := Some [objective_z];
     o_disabled := VUndefined |}.

(** The override [{objectives: {a: {count: 5}}}]. *)
Definition count_override : TaskOverride :=
  {| o_minPlayerLevel := VUndefined;
     o_name := VUndefined;
     o_wikiLink := VUndefined;
     o_map := VUndefined;
     o_experience := VUndefined;
     o_finishRewards := VUndefined;
     o_taskRequirements := None;
     o_objectives := Some [("a", [("count", VNum 5)])];
     o_objectivesAdd := None;
     o_disabled := VUndefined |}.

(** A task whose list of objectives has a hole. *)
Definition task_with_hole : obj :=
  [("id", VStr "t1"); ("objectives", VArr [VObj objective_a; VNull])].

Definition unchanged (s : string) : string := s.

Definition addition_debut : TaskAddition :=
  {| a_name := "debut"; a_wikiLink := VStr "https://wiki/Debut/" |}.

Definition addition_new : TaskAddition :=
  {| a_name := "new task"; a_wikiLink := VUndefined |}.

(** An addition whose wiki link is a number. *)
Definition addition_malformed : TaskAddition :=
  {| a_name := "odd task"; a_wikiLink := VNum 5 |}.

End MoreSamples.

(* ================================================================== *)
(** * Facts about the JavaScript fragment                               *)
(* ================================================================== *)

Module JSFacts.
Import JS Spec Aux.

(** ** Property tables *)

Lemma has_In (o : obj) (k : string) : has o k = true <-> In k (keys o).
Proof.
  unfold has, keys. induction o as [|[k' v] r IH]; cbn.
  - split; [discriminate|tauto].
  - destruct (k' =? k) eqn:E.
    + apply String.eqb_eq in E. subst. tauto.
    + apply String.eqb_neq in E. rewrite IH. split; [tauto|].
      intros [H|H]; [contradiction|assumption].
Qed.

Lemma lookup_replace (o : obj) (k : string) (v : value) (k' : string) :
  has o k = true ->
  lookup (replace o k v) k' = if k =? k' then Some v else lookup o k'.
Proof.
  unfold has. induction o as [|[k0 v0] r IH]; cbn; [discriminate|].
  destruct (k0 =? k) eqn:E; cbn.
  - intros _. apply String.eqb_eq in E. subst k0.
    destruct (k =? k'); reflexivity.
  - intros H. specialize (IH H). rewrite IH.
    destruct (k0 =? k') eqn:E'; [|reflexivity].
    apply String.eqb_eq in E'. subst k0. rewrite String.eqb_sym, E.
    reflexivity.
Qed.

Lemma lookup_insert_index (n : N) (o : obj) (k : string) (v : value)
  (k' : string) :
  has o k = false ->
  lookup (insert_index n k v o) k' = if k =? k' then Some v else lookup o k'.
Proof.
  unfold has. induction o as [|[k0 v0] r IH]; cbn; [reflexivity|].
  destruct (k0 =? k) eqn:E; [discriminate|]. intros H.
  destruct (array_index k0) as [m|]; [destruct (m <? n)%N|]; cbn;
    try reflexivity.
  rewrite (IH H). destruct (k0 =? k') eqn:E'; [|reflexivity].
  apply String.eqb_eq in E'. subst k0. rewrite String.eqb_sym, E. reflexivity.
Qed.

Lemma lookup_app_new (o : obj) (k : string) (v : value) (k' : string) :
  has o k = false ->
  lookup (o ++ [(k, v)])%list k' = if k =? k' then Some v else lookup o k'.
Proof.
  unfold has. induction o as [|[k0 v0] r IH]; cbn.
  - destruct (k =? k'); reflexivity.
  - destruct (k0 =? k) eqn:E; [discriminate|]. intros H.
    rewrite (IH H). destruct (k0 =? k') eqn:E'; [|reflexivity].
    apply String.eqb_eq in E'. subst k0. rewrite String.eqb_sym, E.
    reflexivity.
Qed.

Lemma lookup_set (o : obj) (k : string) (v : value) (k' : string) :
  lookup (set o k v) k' = if k =? k' then Some v else lookup o k'.
Proof.
  unfold set. destruct (has o k) eqn:H.
  - now apply lookup_replace.
  - destruct (array_index k).
    + now apply lookup_insert_index.
    + now apply lookup_app_new.
Qed.

Lemma get_set (o : obj) (k : string) (v : value) (k' : string) :
  get (set o k v) k' = if k =? k' then v else get o k'.
Proof.
  unfold get. rewrite lookup_set. destruct (k =? k'); reflexivity.
Qed.

Lemma get_set_same (o : obj) (k : string) (v : value) :
  get (set o k v) k = v.
Proof. rewrite get_set, String.eqb_refl. reflexivity. Qed.

Lemma keys_replace (o : obj) (k : string) (v : value) :
  keys (replace o k v) = keys o.
Proof.
  unfold keys. induction o as [|[k0 v0] r IH]; cbn; [reflexivity|].
  destruct (k0 =? k); cbn; [reflexivity|]. now rewrite IH.
Qed.

Lemma keys_insert_index (n : N) (o : obj) (k : string) (v : value) :
  Permutation (keys (insert_index n k v o)) (k :: keys o).
Proof.
  unfold keys. induction o as [|[k0 v0] r IH]; cbn; [reflexivity|].
  destruct (array_index k0) as [m|]; [destruct (m <? n)%N|]; cbn;
    try reflexivity.
  rewrite IH. apply perm_swap.
Qed.

Lemma keys_set (o : obj) (k : string) (v : value) :
  Permutation (keys (set o k v)) (if has o k then keys o else k :: keys o).
Proof.
  unfold set. destruct (has o k).
  - now rewrite keys_replace.
  - destruct (array_index k).
    + apply keys_insert_index.
    + unfold keys. rewrite map_app. cbn.
      now rewrite <- Permutation_cons_append.
Qed.

(** The last binding of a key wins when properties are defined in turn. *)
Lemma lookup_assign (target source : obj) (k : string) :
  lookup (assign target source) k
  = match lookup (rev source) k with
    | Some v => Some v
    | None => lookup target k
    end.
Proof.
  unfold assign. revert target.
  induction source as [|[k0 v0] r IH]; intros target; cbn; [reflexivity|].
  rewrite IH, lookup_set. cbn.
  assert (Happ : forall a b : obj,
             lookup (a ++ b)%list k
             = match lookup a k with Some v => Some v | None => lookup b k end).
  { intros a b. induction a as [|[ka va] a IHa]; cbn; [reflexivity|].
    destruct (ka =? k); [reflexivity|apply IHa]. }
  rewrite Happ. destruct (lookup (rev r) k); [reflexivity|]. cbn.
  destruct (k0 =? k); reflexivity.
Qed.

Lemma distinct_NoDup (l : list string) : distinct l = true <-> NoDup l.
Proof.
  induction l as [|x r IH]; cbn.
  - split; [constructor|reflexivity].
  - rewrite andb_true_iff, negb_true_iff, IH. split.
    + intros [Hx Hr]. constructor; [|assumption]. intros Hin.
      assert (existsb (String.eqb x) r = true); [|congruence].
      apply existsb_exists. exists x. split; [assumption|apply String.eqb_refl].
    + intros H. inversion H as [|? ? Hx Hr]; subst. split; [|assumption].
      destruct (existsb _ r) eqn:E; [|reflexivity].
      apply existsb_exists in E. destruct E as [y [Hin Hy]].
      apply String.eqb_eq in Hy. subst. contradiction.
Qed.

Lemma lookup_In (o : obj) (k : string) (v : value) :
  lookup o k = Some v -> In (k, v) o.
Proof.
  induction o as [|[k0 v0] r IH]; cbn; [discriminate|].
  destruct (k0 =? k) eqn:E.
  - apply String.eqb_eq in E. intros [= ->]. subst. now left.
  - intros H. right. now apply IH.
Qed.

Lemma lookup_none (o : obj) (k : string) :
  lookup o k = None <-> ~ In k (keys o).
Proof.
  rewrite <- has_In. unfold has. destruct (lookup o k); split; intros;
    congruence.
Qed.

Lemma lookup_app (a b : obj) (k : string) :
  lookup (a ++ b)%list k
  = match lookup a k with Some v => Some v | None => lookup b k end.
Proof.
  induction a as [|[ka va] a IH]; cbn; [reflexivity|].
  destruct (ka =? k); [reflexivity|apply IH].
Qed.

Lemma lookup_rev (o : obj) (k : string) :
  NoDup (keys o) -> lookup (rev o) k = lookup o k.
Proof.
  induction o as [|[k0 v0] r IH]; cbn; [reflexivity|].
  intros H. inversion H as [|? ? Hk Hr]; subst.
  rewrite lookup_app, (IH Hr). cbn.
  destruct (k0 =? k) eqn:E.
  - apply String.eqb_eq in E. subst.
    apply lookup_none in Hk. now rewrite Hk.
  - destruct (lookup r k); reflexivity.
Qed.

Lemma lookup_spread (o : obj) (k : string) :
  NoDup (keys o) -> lookup (spread (VObj o)) k = lookup o k.
Proof.
  intros H. unfold spread, own_entries.
  rewrite lookup_assign, (lookup_rev _ _ H).
  destruct (lookup o k); reflexivity.
Qed.

Lemma well_formed_keys (o : obj) :
  well_formed (VObj o) = true -> NoDup (keys o).
Proof.
  cbn. rewrite andb_true_iff. intros [H _]. now apply distinct_NoDup.
Qed.

Lemma well_formed_lookup (o : obj) (k : string) (v : value) :
  well_formed (VObj o) = true -> lookup o k = Some v -> well_formed v = true.
Proof.
  cbn. rewrite andb_true_iff. intros [_ H] Hl. apply lookup_In in Hl.
  rewrite forallb_forall in H. exact (H _ Hl).
Qed.

Lemma get_absent (o : obj) (k : string) :
  ~ In k (keys o) -> get o k = VUndefined.
Proof. intros H. apply lookup_none in H. unfold get. now rewrite H. Qed.

Lemma well_formed_get (o : obj) (k : string) :
  well_formed (VObj o) = true -> well_formed (get o k) = true.
Proof.
  intros H. unfold get. destruct (lookup o k) eqn:E; [|reflexivity].
  eapply well_formed_lookup; eassumption.
Qed.

Lemma fold_left_ext_in {A B} (f g : A -> B -> A) (l : list B) (a : A) :
  (forall acc x, In x l -> f acc x = g acc x) ->
  fold_left f l a = fold_left g l a.
Proof.
  revert a. induction l as [|x l IH]; intros a H; cbn; [reflexivity|].
  rewrite H by now left. apply IH. intros acc y Hy. apply H. now right.
Qed.

Lemma lookup_map_values (f : value -> value) (o : obj) (k : string) :
  lookup (map_values f o) k = option_map f (lookup o k).
Proof.
  induction o as [|[k0 v0] r IH]; cbn; [reflexivity|].
  destruct (k0 =? k); [reflexivity|exact IH].
Qed.

Lemma get_map_values (f : value -> value) (o : obj) (k : string) :
  In k (keys o) -> get (map_values f o) k = f (get o k).
Proof.
  intros Hin. unfold get. rewrite lookup_map_values.
  destruct (lookup o k) eqn:E; [reflexivity|].
  apply lookup_none in E. contradiction.
Qed.

Lemma In_lookup (o : obj) (k : string) (v : value) :
  NoDup (keys o) -> In (k, v) o -> lookup o k = Some v.
Proof.
  induction o as [|[k0 v0] r IH]; cbn; [tauto|].
  intros Hnd Hin. inversion Hnd as [|? ? Hk Hr]; subst.
  destruct Hin as [[= -> ->]|Hin].
  - now rewrite String.eqb_refl.
  - destruct (k0 =? k) eqn:E; [|now apply IH].
    apply String.eqb_eq in E. subst. exfalso. apply Hk.
    unfold keys. apply in_map_iff. now exists (k, v).
Qed.

Lemma lookup_perm (o o' : obj) (k : string) :
  NoDup (keys o) -> Permutation o o' -> lookup o k = lookup o' k.
Proof.
  intros Hnd Hperm.
  assert (Hnd' : NoDup (keys o')).
  { eapply Permutation_NoDup; [|exact Hnd]. unfold keys.
    now apply Permutation_map. }
  destruct (lookup o k) as [v|] eqn:E.
  - symmetry. apply In_lookup; [assumption|].
    eapply Permutation_in; [exact Hperm|]. now apply lookup_In.
  - destruct (lookup o' k) as [v'|] eqn:E'; [|reflexivity].
    apply lookup_In in E'. apply Permutation_sym in Hperm.
    apply (Permutation_in _ Hperm) in E'.
    apply (In_lookup _ _ _ Hnd) in E'. congruence.
Qed.

(** ** Objects built by defining the sorted keys in turn *)

Lemma lookup_fold_set (f : string -> value) (ks : list string) (init : obj)
  (k : string) :
  lookup (fold_left (fun acc key => set acc key (f key)) ks init) k
  = if existsb (String.eqb k) ks then Some (f k) else lookup init k.
Proof.
  revert init. induction ks as [|k0 ks IH]; intros init; cbn; [reflexivity|].
  rewrite IH, lookup_set. rewrite (String.eqb_sym k k0).
  destruct (existsb (String.eqb k) ks) eqn:E.
  - now rewrite orb_true_r.
  - rewrite orb_false_r. destruct (k0 =? k) eqn:E0; [|reflexivity].
    apply String.eqb_eq in E0. now subst.
Qed.

Lemma existsb_eqb_In (k : string) (ks : list string) :
  existsb (String.eqb k) ks = true <-> In k ks.
Proof.
  rewrite existsb_exists. split.
  - intros [x [Hin Hx]]. apply String.eqb_eq in Hx. now subst.
  - intros Hin. exists k. split; [assumption|apply String.eqb_refl].
Qed.

Lemma keys_fold_set (f : string -> value) (ks : list string) (init : obj) :
  NoDup ks -> (forall k, In k ks -> ~ In k (keys init)) ->
  Permutation (keys (fold_left (fun acc key => set acc key (f key)) ks init))
              (keys init ++ ks).
Proof.
  revert init. induction ks as [|k0 ks IH]; intros init Hnd Hfresh; cbn.
  - now rewrite app_nil_r.
  - inversion Hnd as [|? ? Hk0 Hks]; subst.
    assert (Hnew : has init k0 = false).
    { destruct (has init k0) eqn:E; [|reflexivity].
      apply has_In in E. exfalso. apply (Hfresh k0); [now left|assumption]. }
    pose proof (keys_set init k0 (f k0)) as Hset. rewrite Hnew in Hset.
    rewrite IH; [| assumption |].
    + rewrite Hset. cbn. apply Permutation_middle.
    + intros k Hin Hin'. apply (Permutation_in _ Hset) in Hin'.
      destruct Hin' as [->|Hin']; [contradiction|].
      apply (Hfresh k); [now right|assumption].
Qed.

(** ** Primitive operators and outcomes *)

Lemma strict_eq_true (v : value) :
  strict_eq v (VBool true) = true <-> v = VBool true.
Proof.
  split.
  - destruct v; cbn; try discriminate. destruct b; [reflexivity|discriminate].
  - intros ->. reflexivity.
Qed.

Lemma bind_Ok {A B} (r : result A) (k : A -> result B) (b : B) :
  bind r k = Ok b -> exists a, r = Ok a /\ k a = Ok b.
Proof. destruct r; cbn; [eauto|discriminate]. Qed.

Lemma mapM_Ok {A B} (f : A -> result B) (l : list A) :
  Forall (fun x => f x <> Throw) l ->
  exists ys, mapM f l = Ok ys /\ Forall2 (fun x y => f x = Ok y) l ys.
Proof.
  induction 1 as [|x l Hx Hl [ys [IH1 IH2]]]; cbn.
  - exists []. split; [reflexivity|constructor].
  - destruct (f x) as [y|] eqn:E; [|congruence]. cbn. rewrite IH1. cbn.
    exists (y :: ys). split; [reflexivity|]. now constructor.
Qed.

End JSFacts.

(* ================================================================== *)
(** * Facts about sorting                                               *)
(* ================================================================== *)

Module SortFacts.
Import JS Spec Aux.

Section StableSort.
Context {A : Type}.
Variable cmp : A -> A -> comparison.

Lemma sort_insert_perm (x : A) (l : list A) :
  Permutation (sort_insert cmp x l) (x :: l).
Proof.
  induction l as [|y r IH]; cbn; [reflexivity|].
  destruct (cmp x y); try reflexivity.
  rewrite IH. apply perm_swap.
Qed.

Lemma sort_perm (l : list A) : Permutation (sort cmp l) l.
Proof.
  induction l as [|x r IH]; cbn; [reflexivity|].
  rewrite sort_insert_perm. now constructor.
Qed.

Lemma sort_of_sorted (l : list A) : Sorted (le cmp) l -> sort cmp l = l.
Proof.
  induction 1 as [|x l Hs IH Hhd]; cbn; [reflexivity|].
  rewrite IH. destruct Hhd as [|y r Hxy]; cbn; [reflexivity|].
  unfold le in Hxy. destruct (cmp x y); congruence.
Qed.

(** A comparator answers consistently when its arguments are swapped. *)
Hypothesis cmp_antisym : forall x y, cmp x y = CompOpp (cmp y x).

Lemma le_total (x y : A) : cmp x y = Gt -> le cmp y x.
Proof.
  unfold le. intros H. rewrite cmp_antisym, H. discriminate.
Qed.

Lemma sort_insert_sorted (x : A) (l : list A) :
  Sorted (le cmp) l -> Sorted (le cmp) (sort_insert cmp x l).
Proof.
  induction 1 as [|y l Hs IH Hhd]; cbn.
  - repeat constructor.
  - destruct (cmp x y) eqn:E.
    + repeat constructor; try assumption. unfold le. congruence.
    + repeat constructor; try assumption. unfold le. congruence.
    + constructor; [assumption|].
      destruct Hhd as [|z r Hyz]; cbn.
      * constructor. now apply le_total.
      * destruct (cmp x z); constructor; try assumption; now apply le_total.
Qed.

Lemma sort_sorted (l : list A) : Sorted (le cmp) (sort cmp l).
Proof.
  induction l as [|x r IH]; cbn; [constructor|].
  now apply sort_insert_sorted.
Qed.

Lemma sort_idempotent (l : list A) : sort cmp (sort cmp l) = sort cmp l.
Proof. apply sort_of_sorted, sort_sorted. Qed.

Hypothesis le_trans : forall x y z, le cmp x y -> le cmp y z -> le cmp x z.

Lemma sort_strongly_sorted (l : list A) : StronglySorted (le cmp) (sort cmp l).
Proof.
  apply Sorted_StronglySorted; [exact le_trans|apply sort_sorted].
Qed.

Lemma le_le_tie (x y : A) : le cmp x y -> le cmp y x -> cmp x y = Eq.
Proof.
  unfold le. intros Hxy Hyx. rewrite cmp_antisym in Hyx.
  destruct (cmp x y); cbn in *; congruence.
Qed.

(** Two sorted arrangements of the same elements agree as soon as the
    elements that tie are equal. *)
Lemma sorted_perm_eq (l l' : list A) :
  (forall x y, In x l -> In y l -> cmp x y = Eq -> x = y) ->
  StronglySorted (le cmp) l -> StronglySorted (le cmp) l' -> Permutation l l' -> l = l'.
Proof.
  revert l'. induction l as [|x l IH]; intros l' Htie Hl Hl' Hperm.
  - apply Permutation_nil in Hperm. now subst.
  - destruct l' as [|y l'].
    { apply Permutation_sym, Permutation_nil in Hperm. discriminate. }
    inversion Hl as [|? ? Hsl Hxall]; subst.
    inversion Hl' as [|? ? Hsl' Hyall]; subst.
    assert (Hxy : x = y).
    { assert (Hyin : In y (x :: l))
        by (eapply Permutation_in; [apply Permutation_sym; exact Hperm|now left]).
      assert (Hxin : In x (y :: l'))
        by (eapply Permutation_in; [exact Hperm|now left]).
      destruct Hyin as [Heq|Hyin]; [assumption|].
      destruct Hxin as [Heq|Hxin]; [now symmetry|].
      apply Htie; [now left|now right|].
      apply le_le_tie.
      - rewrite Forall_forall in Hxall. now apply Hxall.
      - rewrite Forall_forall in Hyall. now apply Hyall. }
    subst y. f_equal. apply IH; try assumption.
    + intros a b Ha Hb. apply Htie; now right.
    + eapply Permutation_cons_inv. exact Hperm.
Qed.

Lemma sort_perm_eq (l l' : list A) :
  (forall x y, In x l -> In y l -> cmp x y = Eq -> x = y) ->
  Permutation l l' -> sort cmp l = sort cmp l'.
Proof.
  intros Htie Hperm. apply sorted_perm_eq.
  - intros x y Hx Hy. apply Htie; eapply Permutation_in;
      try apply sort_perm; assumption.
  - apply sort_strongly_sorted.
  - apply sort_strongly_sorted.
  - rewrite !sort_perm. exact Hperm.
Qed.

End StableSort.

(** ** The code-unit order of strings *)

Lemma ascii_compare_lt_trans (a b c : ascii) :
  Ascii.compare a b = Lt -> Ascii.compare b c = Lt -> Ascii.compare a c = Lt.
Proof.
  unfold Ascii.compare. rewrite !N.compare_lt_iff. lia.
Qed.

Lemma string_le_trans (x y z : string) :
  le String.compare x y -> le String.compare y z -> le String.compare x z.
Proof.
  unfold le. revert y z.
  induction x as [|a x IH]; intros [|b y] [|c z]; cbn; try congruence.
  destruct (Ascii.compare a b) eqn:Eab; try congruence;
    destruct (Ascii.compare b c) eqn:Ebc; try congruence.
  - apply Ascii.compare_eq_iff in Eab, Ebc. subst.
    rewrite (proj2 (N.compare_eq_iff _ _) eq_refl : Ascii.compare c c = Eq).
    apply IH.
  - apply Ascii.compare_eq_iff in Eab. subst. rewrite Ebc. congruence.
  - apply Ascii.compare_eq_iff in Ebc. subst. rewrite Eab. congruence.
  - rewrite (ascii_compare_lt_trans _ _ _ Eab Ebc). congruence.
Qed.

Lemma string_sort_perm_eq (l l' : list string) :
  Permutation l l' -> sort String.compare l = sort String.compare l'.
Proof.
  apply sort_perm_eq.
  - apply String.compare_antisym.
  - apply string_le_trans.
  - intros x y _ _. apply String.compare_eq_iff.
Qed.

End SortFacts.

(* ================================================================== *)
(** * Facts about JSON.stringify and the default sort order             *)
(* ================================================================== *)

Module JsonFacts.
Import JS Spec Aux SortFacts.

Lemma append_assoc (a b c : string) : (a ++ b) ++ c = a ++ (b ++ c).
Proof. induction a as [|x a IH]; cbn; [reflexivity|now rewrite IH]. Qed.

Lemma read_quote_char (c : ascii) (rest : string) :
  read_char (quote_char c ++ rest) = Some (c, rest).
Proof.
  destruct c as [[] [] [] [] [] [] [] []]; reflexivity.
Qed.

Lemma read_closing_quote (rest : string) :
  read_char (String dquote rest) = None.
Proof. reflexivity. Qed.

Lemma quote_body_inj (s s' rest rest' : string) :
  quote_body s ++ String dquote rest = quote_body s' ++ String dquote rest' ->
  s = s' /\ rest = rest'.
Proof.
  revert s'. induction s as [|c s IH]; intros [|c' s'] H; cbn in H.
  - injection H as ->. auto.
  - apply (f_equal read_char) in H.
    rewrite append_assoc, read_quote_char, read_closing_quote in H.
    discriminate.
  - apply (f_equal read_char) in H.
    rewrite append_assoc, read_quote_char, read_closing_quote in H.
    discriminate.
  - apply (f_equal read_char) in H.
    rewrite !append_assoc, !read_quote_char in H.
    injection H as -> H. destruct (IH _ H) as [-> ->]. auto.
Qed.

Lemma quote_inj (s s' rest rest' : string) :
  quote s ++ rest = quote s' ++ rest' -> s = s' /\ rest = rest'.
Proof.
  unfold quote. cbn. rewrite !append_assoc. cbn. intros H.
  injection H as H. now apply quote_body_inj.
Qed.

Lemma element_text_inj (x y : value) (rest rest' : string) :
  id_value x -> id_value y ->
  element_text x ++ rest = element_text y ++ rest' -> x = y /\ rest = rest'.
Proof.
  destruct x, y; cbn; try contradiction; intros _ _ H.
  - injection H as ->. auto.
  - discriminate.
  - discriminate.
  - apply quote_inj in H. destruct H as [-> ->]. auto.
Qed.

Lemma concat_closing (x : string) (l : list string) :
  String.concat "," (x :: l) ++ "]" = x ++ closing l.
Proof.
  revert x. induction l as [|y l IH]; intros x; cbn.
  - reflexivity.
  - cbn in IH. rewrite append_assoc. f_equal. cbn. f_equal. apply IH.
Qed.

Lemma closing_inj (a b : list value) :
  Forall id_value a -> Forall id_value b ->
  closing (List.map element_text a) = closing (List.map element_text b) ->
  a = b.
Proof.
  intros Ha. revert b. induction Ha as [|x a Hx Ha IH]; intros b Hb H;
    destruct Hb as [|y b Hy Hb]; cbn in H; try discriminate.
  - reflexivity.
  - injection H as H. apply element_text_inj in H; try assumption.
    destruct H as [-> H]. f_equal. now apply IH.
Qed.

Lemma stringify_array (l : list value) :
  JSON_stringify (VArr l)
  = Some ("[" ++ String.concat "," (List.map element_text l) ++ "]").
Proof. reflexivity. Qed.

Lemma stringify_ids_inj (a b : list value) :
  Forall id_value a -> Forall id_value b ->
  TaskValidator.stringify_ids a = TaskValidator.stringify_ids b -> a = b.
Proof.
  unfold TaskValidator.stringify_ids. rewrite !stringify_array.
  intros Ha Hb H. injection H as H.
  destruct Ha as [|x a Hx Ha], Hb as [|y b Hy Hb]; cbn [List.map] in H.
  - reflexivity.
  - rewrite concat_closing in H. cbn in H. destruct y; try contradiction;
      cbn in H; discriminate.
  - rewrite concat_closing in H. cbn in H. destruct x; try contradiction;
      cbn in H; discriminate.
  - rewrite !concat_closing in H. apply element_text_inj in H; try assumption.
    destruct H as [-> H]. f_equal. now apply closing_inj.
Qed.

(** ** The default sort order *)

Lemma default_compare_antisym (x y : value) :
  default_compare x y = CompOpp (default_compare y x).
Proof.
  destruct x, y; cbn [default_compare CompOpp]; try reflexivity;
    apply String.compare_antisym.
Qed.

Lemma default_le_iff (x y : value) :
  le default_compare x y <->
  (is_undefined y = true
   \/ (is_undefined x = false /\ le String.compare (String_ x) (String_ y))).
Proof.
  unfold le. destruct x, y; cbn [default_compare is_undefined]; split;
    intros H; try (left; reflexivity); try discriminate;
    try (right; split; [reflexivity|exact H]);
    try (destruct H as [H|[H1 H2]]; try discriminate; try exact H2);
    try congruence.
Qed.

Lemma default_le_trans (x y z : value) :
  le default_compare x y -> le default_compare y z -> le default_compare x z.
Proof.
  rewrite !default_le_iff. intros [Hy|[Hx Hxy]] [Hz|[Hy' Hyz]]; auto;
    try congruence.
  right. split; [assumption|]. eapply string_le_trans; eassumption.
Qed.

Lemma default_tie_ids (x y : value) :
  id_value x -> id_value y -> default_compare x y = Eq -> x = y.
Proof.
  destruct x, y; cbn; try contradiction; intros _ _ H; try discriminate.
  - reflexivity.
  - apply String.compare_eq_iff in H. now subst.
Qed.

Lemma sort_ids_eq_iff (a b : list value) :
  Forall id_value a ->
  sort default_compare a = sort default_compare b <-> Permutation a b.
Proof.
  intros Ha. split.
  - intros H. rewrite <- (sort_perm default_compare a), H. apply sort_perm.
  - apply sort_perm_eq.
    + apply default_compare_antisym.
    + apply default_le_trans.
    + rewrite Forall_forall in Ha. intros x y Hx Hy.
      apply default_tie_ids; auto.
Qed.

End JsonFacts.

(* ================================================================== *)
(** * Properties of the field reconciler                                *)
(* ================================================================== *)

Module ReconcilerProps.
Import JS TaskValidator Spec Aux JSFacts SortFacts JsonFacts.

Lemma find_task_none (taskId : string) (apiTasks : list TaskData) :
  find (fun t => t_id t =? taskId) apiTasks = None <->
  (forall t, In t apiTasks -> t_id t <> taskId).
Proof.
  split.
  - intros Hnone t Hin Heq.
    pose proof (find_none _ _ Hnone t Hin) as Hf. cbn in Hf.
    apply String.eqb_neq in Hf. contradiction.
  - intros Habs. destruct (find _ apiTasks) as [t|] eqn:Hfind; [|reflexivity].
    apply find_some in Hfind. destruct Hfind as [Hin Heq].
    apply String.eqb_eq in Heq. exfalso. exact (Habs t Hin Heq).
Qed.

Lemma needs_iff (d : ValidationDetail) :
  needs d = true <-> (status d = needed \/ status d = check).
Proof.
  unfold needs. destruct (status d); cbn; split; intros H; auto;
    try discriminate; destruct H; discriminate.
Qed.

Lemma existsb_needs (ds : list ValidationDetail) :
  existsb needs ds = true <->
  (exists d, In d ds /\ (status d = needed \/ status d = check)).
Proof.
  rewrite existsb_exists. split; intros [d [Hin Hd]]; exists d; split; auto;
    now apply needs_iff.
Qed.

Lemma requirement_ids_are_ids (l : list TaskRequirement) :
  Forall id_value (requirement_ids l).
Proof.
  unfold requirement_ids. apply Forall_forall. intros v Hin.
  apply in_map_iff in Hin. destruct Hin as [r [<- _]].
  unfold req_task_id. destruct (req_task r); exact I.
Qed.

Lemma sorted_ids_are_ids (l : list value) :
  Forall id_value l -> Forall id_value (sort default_compare l).
Proof.
  intros H. rewrite Forall_forall in *. intros v Hin. apply H.
  eapply Permutation_in; [apply sort_perm|exact Hin].
Qed.

Lemma not_active_iff (r : TaskRequirement) :
  not_active r = true <->
  (forall st, req_status r = Some st -> ~ In "active" st).
Proof.
  unfold not_active. destruct (req_status r) as [st|].
  - rewrite negb_true_iff. split.
    + intros H st' [= <-] Hin.
      assert (existsb (String.eqb "active") st = true); [|congruence].
      apply existsb_exists. exists "active". split; [assumption|].
      apply String.eqb_refl.
    + intros H. destruct (existsb _ st) eqn:E; [|reflexivity].
      apply existsb_exists in E. destruct E as [s [Hin Hs]].
      apply String.eqb_eq in Hs. subst s. exfalso. exact (H st eq_refl Hin).
  - split; [intros _ st; discriminate|reflexivity].
Qed.

Lemma nonempty_length {A} (l : list A) :
  l <> [] ->
  ((List.length l =? 0)%nat = false) /\ ((0 <? List.length l)%nat = true).
Proof. destruct l; [congruence|]. intros _. split; reflexivity. Qed.

Section Reconciler.
Variable localeCompare : string -> string -> comparison.

(** C1. The result of [validateTaskOverride] has status REMOVED_FROM_API
    exactly when the task id is absent from the live list or the override
    has [disabled === true]; otherwise it is NEEDED exactly when some detail
    of the result is 'needed' or 'check', and FIXED exactly when none is; and
    [stillNeeded] is true exactly when the status is NEEDED. *)
Theorem validateTaskOverride_status
  (taskId : string) (override : TaskOverride) (apiTasks : list TaskData) :
  let r := validateTaskOverride localeCompare taskId override apiTasks in
  let removed :=
    (forall t, In t apiTasks -> t_id t <> taskId)
    \/ o_disabled override = VBool true in
  let flagged :=
    exists d, In d (details r) /\ (status d = needed \/ status d = check) in
  (r_status r = REMOVED_FROM_API <-> removed)
  /\ (~ removed -> (r_status r = NEEDED <-> flagged))
  /\ (~ removed -> (r_status r = FIXED <-> ~ flagged))
  /\ (stillNeeded r = true <-> r_status r = NEEDED).
Proof.
  cbv zeta. unfold validateTaskOverride.
  destruct (find (fun t => t_id t =? taskId) apiTasks) as [apiTask|] eqn:Hfind.
  - assert (Hpresent : ~ (forall t, In t apiTasks -> t_id t <> taskId)).
    { intros Habs. apply find_task_none in Habs. congruence. }
    destruct (strict_eq (o_disabled override) (VBool true)) eqn:Hdis.
    + apply strict_eq_true in Hdis. cbn.
      repeat split; intros; try tauto; try discriminate.
    + assert (Hnot : o_disabled override <> VBool true).
      { intros Heq. apply strict_eq_true in Heq. congruence. }
      cbn [r_status stillNeeded details].
      destruct (existsb needs (collect_details localeCompare override apiTask))
        eqn:Hex.
      * pose proof (proj1 (existsb_needs _) Hex) as Hflag.
        repeat split; intros; try tauto; try discriminate.
      * assert (Hflag : ~ exists d,
                   In d (collect_details localeCompare override apiTask)
                   /\ (status d = needed \/ status d = check)).
        { intros H. apply existsb_needs in H. congruence. }
        repeat split; intros; try tauto; try discriminate.
  - pose proof (proj1 (find_task_none _ _) Hfind) as Habs. cbn.
    repeat split; intros; try tauto; try discriminate.
Qed.

(** C9. When the override declares an empty [taskRequirements] list and no
    live requirement is left after the 'active' ones are filtered out, the
    taskRequirements validator emits no detail; a task whose override
    declares only that empty list is then reported FIXED with no details. *)
Theorem empty_requirements_emit_nothing
  (override : TaskOverride) (apiTask : TaskData)
  (Hdeclared : o_taskRequirements override = Some [])
  (Hlive : live_requirements apiTask = []) :
  validateTaskRequirements override apiTask = None
  /\ (forall taskId apiTasks,
         find (fun t => t_id t =? taskId) apiTasks = Some apiTask ->
         validateTaskOverride localeCompare taskId
           empty_requirements_override apiTasks
         = {| r_id := taskId;
              r_name := t_name apiTask;
              r_status := FIXED;
              stillNeeded := false;
              details := [] |}).
Proof.
  unfold live_requirements in Hlive. split.
  - unfold validateTaskRequirements. rewrite Hdeclared, Hlive. reflexivity.
  - intros taskId apiTasks Hfind.
    unfold validateTaskOverride. rewrite Hfind. cbn [strict_eq o_disabled
      empty_requirements_override].
    unfold collect_details, FIELD_VALIDATORS, createFieldValidator,
      validateTaskRequirements.
    cbn [flat_map override_get empty_requirements_override o_minPlayerLevel
         o_name o_wikiLink o_map o_experience o_finishRewards
         o_taskRequirements o_objectives o_objectivesAdd app].
    rewrite Hlive. reflexivity.
Qed.

End Reconciler.

(** C8, amended.  When the override declares [taskRequirements], the
    validator compares against the live requirements whose status does not
    include 'active'.  If none is left and the override lists some, it emits
    'needed'.  If some are left, it emits 'fixed' when the live and the
    override requirements name the same predecessor ids the same number of
    times, in any order, and otherwise 'needed' with both sorted id lists in
    the message.  For lists without repetition, naming the same ids up to
    order is naming the same set of ids. *)
Theorem taskRequirements_validator
  (override : TaskOverride) (apiTask : TaskData)
  (overrideReqs : list TaskRequirement)
  (Hdeclared : o_taskRequirements override = Some overrideReqs) :
  let apiReqs := live_requirements apiTask in
  let apiReqIds := sort default_compare (requirement_ids apiReqs) in
  let overrideReqIds := sort default_compare (requirement_ids overrideReqs) in
  (forall r, In r apiReqs <->
             In r (match t_taskRequirements apiTask with
                   | Some l => l
                   | None => []
                   end)
             /\ (forall st, req_status r = Some st -> ~ In "active" st))
  /\ (apiReqs = [] -> overrideReqs <> [] ->
      exists msg,
        validateTaskRequirements override apiTask
        = Some {| field := "taskRequirements"; status := needed;
                  message := msg |})
  /\ (apiReqs <> [] ->
      Permutation (requirement_ids apiReqs) (requirement_ids overrideReqs) ->
      validateTaskRequirements override apiTask
      = Some {| field := "taskRequirements"; status := fixed;
                message := "taskRequirements: FIXED IN API" |})
  /\ (apiReqs <> [] ->
      ~ Permutation (requirement_ids apiReqs) (requirement_ids overrideReqs) ->
      validateTaskRequirements override apiTask
      = Some {| field := "taskRequirements"; status := needed;
                message :=
                  "taskRequirements: API has different requirements ("
                  ++ join apiReqIds ", " ++ ") vs Override ("
                  ++ join overrideReqIds ", " ++ ") - NEEDS REVIEW" |})
  /\ (NoDup (requirement_ids apiReqs) ->
      NoDup (requirement_ids overrideReqs) ->
      (Permutation (requirement_ids apiReqs) (requirement_ids overrideReqs)
       <-> forall id, In id (requirement_ids apiReqs)
                      <-> In id (requirement_ids overrideReqs))).
Proof.
  cbv zeta. unfold validateTaskRequirements. rewrite Hdeclared.
  fold (live_requirements apiTask). fold (requirement_ids overrideReqs).
  fold (requirement_ids (live_requirements apiTask)).
  split; [|split; [|split; [|split]]].
  - intros r. unfold live_requirements. rewrite filter_In, not_active_iff.
    reflexivity.
  - intros -> Hne. destruct overrideReqs; [congruence|]. cbn. eauto.
  - intros Hne Hperm. destruct (nonempty_length _ Hne) as [-> ->]. cbn [andb].
    apply sort_ids_eq_iff in Hperm; [|apply requirement_ids_are_ids].
    rewrite Hperm, String.eqb_refl. reflexivity.
  - intros Hne Hperm. destruct (nonempty_length _ Hne) as [-> ->]. cbn [andb].
    destruct (String.eqb _ _) eqn:Heq; [|reflexivity].
    exfalso. apply Hperm. apply String.eqb_eq in Heq.
    apply stringify_ids_inj in Heq;
      try (apply sorted_ids_are_ids, requirement_ids_are_ids).
    apply sort_ids_eq_iff in Heq; [assumption|apply requirement_ids_are_ids].
  - intros Hnd Hnd'. split.
    + intros Hperm id. split; apply Permutation_in;
        [assumption|now apply Permutation_sym].
    + intros Hsame. now apply NoDup_Permutation.
Qed.

Lemma empty_requirements_emit_nothing_witness :
  validateTaskRequirements empty_requirements_override Samples.active_task
  = None
  /\ r_status (validateTaskOverride String.compare "t1"
                 empty_requirements_override [Samples.active_task]) = FIXED.
Proof.
  destruct (empty_requirements_emit_nothing String.compare
              empty_requirements_override Samples.active_task
              eq_refl eq_refl) as [Hnone Hall].
  split; [exact Hnone|].
  rewrite (Hall "t1" [Samples.active_task] eq_refl). reflexivity.
Defined.

(** C8 as stated fails: the live requirements [Y] and the override
    requirements [Y, Y] name the same set of ids, yet the validator emits
    'needed'. *)
Lemma requirements_set_match_counterexample :
  (exists overrideReqs,
      o_taskRequirements (Samples.requires ["Y"; "Y"]) = Some overrideReqs
      /\ live_requirements Samples.requiring_task <> []
      /\ forall id,
           In id (requirement_ids (live_requirements Samples.requiring_task))
           <-> In id (requirement_ids overrideReqs))
  /\ validateTaskRequirements (Samples.requires ["Y"; "Y"])
       Samples.requiring_task
     = Some {| field := "taskRequirements"; status := needed;
               message := "taskRequirements: API has different requirements "
                          ++ "(Y) vs Override (Y, Y) - NEEDS REVIEW" |}.
Proof.
  split; [|reflexivity].
  eexists. split; [reflexivity|]. split; [discriminate|].
  intros id. cbn. tauto.
Qed.

Lemma taskRequirements_validator_witness :
  validateTaskRequirements (Samples.requires ["X"]) Samples.requiring_task
  = Some {| field := "taskRequirements"; status := needed;
            message := "taskRequirements: API has different requirements (Y) vs Override (X) - NEEDS REVIEW" |}
  /\ validateTaskRequirements (Samples.requires ["Y"]) Samples.requiring_task
     = Some {| field := "taskRequirements"; status := fixed;
               message := "taskRequirements: FIXED IN API" |}.
Proof.
  split.
  - destruct (taskRequirements_validator (Samples.requires ["X"])
                Samples.requiring_task _ eq_refl) as [_ [_ [_ [H _]]]].
    apply H; [discriminate|]. cbn. intros Hperm.
    apply Permutation_length_1_inv in Hperm. discriminate.
  - destruct (taskRequirements_validator (Samples.requires ["Y"])
                Samples.requiring_task _ eq_refl) as [_ [_ [H _]]].
    apply H; [discriminate|]. cbn. reflexivity.
Defined.

End ReconcilerProps.

(* ================================================================== *)
(** * Properties of the patch applier                                   *)
(* ================================================================== *)

Module ApplyProps.
Import JS ApplyOverlay Spec Aux JSFacts.

(** ** The loop over the entries of the override *)

Lemma apply_field_set (result : obj) (key : string) (v : value) :
  apply_field result (key, v)
  = if handled_separately key then result else set result key v.
Proof.
  unfold apply_field, handled_separately.
  destruct ((key =? "objectives") || (key =? "objectivesAdd")); [reflexivity|].
  destruct (key =? "minPlayerLevel") eqn:E1.
  - apply String.eqb_eq in E1. subst. destruct (is_number v); reflexivity.
  - cbn [andb]. destruct (key =? "map") eqn:E2; [|reflexivity].
    apply String.eqb_eq in E2. subst. destruct (truthy v); reflexivity.
Qed.

Lemma lookup_apply_fields (entries result : obj) (k : string) :
  lookup (fold_left apply_field entries result) k
  = if handled_separately k then lookup result k
    else match lookup (rev entries) k with
         | Some v => Some v
         | None => lookup result k
         end.
Proof.
  revert result.
  induction entries as [|[k0 v0] r IH]; intros result; cbn [fold_left rev].
  - cbn. destruct (handled_separately k); reflexivity.
  - rewrite IH, apply_field_set, lookup_app.
    destruct (handled_separately k) eqn:Hk.
    + destruct (handled_separately k0) eqn:Hk0; [reflexivity|].
      rewrite lookup_set. destruct (k0 =? k) eqn:E; [|reflexivity].
      apply String.eqb_eq in E. congruence.
    + destruct (lookup (rev r) k); [reflexivity|]. cbn.
      destruct (handled_separately k0) eqn:Hk0.
      * destruct (k0 =? k) eqn:E; [|reflexivity].
        apply String.eqb_eq in E. congruence.
      * rewrite lookup_set. destruct (k0 =? k); reflexivity.
Qed.

(** [applyTaskOverlay] returns [null] for the disabled tasks and for no
    other. *)
Lemma drops_iff_disabled (task overlay : obj) :
  applyTaskOverlay task overlay = Ok None <-> disabled_for overlay task = true.
Proof.
  unfold applyTaskOverlay, disabled_for. fold (task_override overlay task).
  destruct (truthy (task_override overlay task)); cbn [negb andb].
  - destruct (strict_eq _ _); [tauto|]. split; [|discriminate].
    intros H. apply bind_Ok in H. destruct H as [r1 [_ H]].
    apply bind_Ok in H. destruct H as [r2 [_ H]]. discriminate.
  - split; discriminate.
Qed.

Lemma survivors_in_order (overlay : obj) (tasks : list obj)
  (mapped : list (option obj)) :
  Forall2 (fun t y => applyTaskOverlay t overlay = Ok y) tasks mapped ->
  Forall2 (fun t r => applyTaskOverlay t overlay = Ok (Some r))
    (filter (fun t => negb (disabled_for overlay t)) tasks)
    (non_null mapped).
Proof.
  induction 1 as [|t y tasks mapped Hty Hrest IH]; cbn; [constructor|].
  destruct y as [r|].
  - destruct (disabled_for overlay t) eqn:E.
    + apply drops_iff_disabled in E. congruence.
    + cbn. now constructor.
  - apply drops_iff_disabled in Hty. rewrite Hty. cbn. exact IH.
Qed.

Lemma mapM_patch_objective (ov pm : obj) (objs : list value) :
  get ov "objectives" = VObj pm ->
  forallb is_object objs = true ->
  mapM (patch_objective (VObj ov)) objs
  = Ok (List.map (patch_total pm) objs).
Proof.
  intros Hpm. induction objs as [|o objs IH]; cbn [forallb mapM List.map];
    [reflexivity|].
  rewrite andb_true_iff. intros [Ho Hobjs]. rewrite (IH Hobjs).
  destruct o; try discriminate.
  unfold patch_objective, member, patch_total.
  cbn [bind prop]. rewrite Hpm. cbn [prop].
  destruct (negb (truthy _)); reflexivity.
Qed.

Lemma patch_total_nil (objs : list value) :
  List.map (patch_total []) objs = objs.
Proof.
  induction objs as [|o objs IH]; cbn; [reflexivity|].
  rewrite IH. destruct o; reflexivity.
Qed.

Section Typed.
Variables (task overlay m ov : obj).
Hypothesis Htask : well_formed (VObj task) = true.
Hypothesis Htasks : get overlay "tasks" = VObj m.
Hypothesis Hentry : lookup m (String_ (get task "id")) = Some (VObj ov).
Hypothesis Henabled : get ov "disabled" <> VBool true.
Hypothesis Htyped_task : typed_task task = true.
Hypothesis Htyped_patch : typed_patch ov = true.

Lemma task_override_entry : task_override overlay task = VObj ov.
Proof.
  unfold task_override. rewrite Htasks. cbn [opt_member prop].
  unfold get at 1. now rewrite Hentry.
Qed.

Lemma base_objectives :
  get (fold_left apply_field ov (spread (VObj task))) "objectives"
  = get task "objectives".
Proof.
  unfold get. rewrite lookup_apply_fields.
  change (handled_separately "objectives") with true. cbv iota.
  now rewrite lookup_spread by (now apply well_formed_keys).
Qed.

(** The value [applyTaskOverlay] returns on inputs that inhabit the
    declared interfaces. *)
Lemma apply_typed_result :
  exists r,
    applyTaskOverlay task overlay = Ok (Some r)
    /\ (forall k, k <> "objectives" ->
                  lookup r k
                  = lookup (fold_left apply_field ov (spread (VObj task))) k)
    /\ get r "objectives" = final_objectives task ov.
Proof.
  unfold applyTaskOverlay. fold (task_override overlay task).
  rewrite task_override_entry. cbn [truthy negb prop own_entries].
  destruct (strict_eq (get ov "disabled") (VBool true)) eqn:Hd.
  { apply strict_eq_true in Hd. contradiction. }
  set (base := fold_left apply_field ov (spread (VObj task))).
  pose proof base_objectives as Hbase. fold base in Hbase.
  unfold final_objectives.
  unfold typed_task in Htyped_task. unfold typed_patch in Htyped_patch.
  apply andb_true_iff in Htyped_patch. destruct Htyped_patch as [Hmap Hadd].
  destruct (get task "objectives") as [| | | | |objs|] eqn:Hobjs;
    try discriminate;
    destruct (get ov "objectives") as [| | | | | |pm] eqn:Hpm;
    try discriminate;
    destruct (get ov "objectivesAdd") as [| | | | |adds|] eqn:Hadds;
    try discriminate;
    cbn [truthy andb bind iterate or_else patch_map appended];
    try rewrite (mapM_patch_objective ov pm objs Hpm Htyped_task);
    cbn [bind];
    try rewrite get_set_same;
    try rewrite Hbase;
    cbn [truthy andb bind iterate or_else patch_map appended app];
    try rewrite patch_total_nil;
    eexists; (split; [reflexivity|]); split;
    try (intros k Hk; repeat rewrite lookup_set;
         apply not_eq_sym in Hk; apply String.eqb_neq in Hk; rewrite ?Hk;
         reflexivity);
    try (rewrite get_set_same; reflexivity);
    try exact Hbase.
Qed.

End Typed.

Lemma merged_spread2 (ob p : obj) :
  NoDup (keys ob) -> NoDup (keys p) ->
  merged ob p (spread2 (VObj ob) (VObj p)).
Proof.
  intros Hob Hp k. unfold spread2, own_entries.
  rewrite !lookup_assign, (lookup_rev _ _ Hob), (lookup_rev _ _ Hp).
  destruct (lookup p k); [reflexivity|]. destruct (lookup ob k); reflexivity.
Qed.

Lemma patched_patch_total (pm : obj) (o : value) :
  well_formed (VObj pm) = true ->
  forallb (fun kv => is_object (snd kv)) pm = true ->
  well_formed o = true ->
  patched pm o (patch_total pm o).
Proof.
  intros Hpm Hobjs Ho. destruct o as [| | | | | |ob]; try reflexivity.
  unfold patched, patch_total. set (key := String_ (get ob "id")).
  unfold get. destruct (lookup pm key) as [patch|] eqn:E; [|reflexivity].
  assert (Hpatch : is_object patch = true).
  { rewrite forallb_forall in Hobjs. apply lookup_In in E.
    exact (Hobjs _ E). }
  destruct patch as [| | | | | |p]; try discriminate. cbn [truthy negb].
  exists (spread2 (VObj ob) (VObj p)). split; [reflexivity|].
  apply merged_spread2.
  - now apply well_formed_keys.
  - apply well_formed_keys. now apply (well_formed_lookup pm key).
Qed.

(** C5. A task whose id has no entry in the task map of the overlay (or
    whose overlay has no task map) is returned as it is. *)
Theorem no_override_returns_task (task overlay : obj)
  (Habsent : get overlay "tasks" = VUndefined
             \/ exists m, get overlay "tasks" = VObj m
                          /\ ~ In (String_ (get task "id")) (keys m)) :
  applyTaskOverlay task overlay = Ok (Some task).
Proof.
  unfold applyTaskOverlay.
  destruct Habsent as [-> | [m [-> Hnot]]]; cbn [opt_member prop].
  - reflexivity.
  - rewrite (get_absent _ _ Hnot). reflexivity.
Qed.

(** Inputs that inhabit the declared interfaces make [applyTaskOverlay]
    return. *)
Lemma typed_returns (overlay task : obj) :
  typed_for overlay task = true -> applyTaskOverlay task overlay <> Throw.
Proof.
  unfold typed_for. rewrite !andb_true_iff. intros [[Hwf Htask] Hentry].
  destruct (get overlay "tasks") as [| | | | | |m] eqn:Htasks;
    try discriminate.
  - unfold applyTaskOverlay. rewrite Htasks. discriminate.
  - destruct (lookup m (String_ (get task "id"))) as [entry|] eqn:Hm.
    + destruct entry as [| | | | | |ov]; try discriminate.
      destruct (strict_eq (get ov "disabled") (VBool true)) eqn:Hd.
      * assert (Hdrop : disabled_for overlay task = true).
        { unfold disabled_for. rewrite (task_override_entry _ _ _ _ Htasks Hm).
          cbn [truthy prop andb]. exact Hd. }
        apply drops_iff_disabled in Hdrop. congruence.
      * assert (Hen : get ov "disabled" <> VBool true).
        { intros H. apply strict_eq_true in H. congruence. }
        destruct (apply_typed_result task overlay m ov Hwf Htasks Hm Hen
                    Htask Hentry) as [r [Hr _]].
        congruence.
    + unfold applyTaskOverlay. rewrite Htasks. cbn [opt_member prop].
      apply lookup_none in Hm. rewrite (get_absent _ _ Hm). discriminate.
Qed.

(** C4. A task whose override has [disabled === true] yields [null]; the
    batch form returns, in the original order, the corrected forms of
    exactly the tasks that are not disabled. *)
Theorem disabled_tasks_are_dropped (overlay : obj) (tasks : list obj)
  (Htyped : Forall (fun t => typed_for overlay t = true) tasks) :
  (forall task, disabled_for overlay task = true ->
                applyTaskOverlay task overlay = Ok None)
  /\ exists survivors,
       applyOverlayToTasks tasks overlay = Ok survivors
       /\ Forall2 (fun t r => applyTaskOverlay t overlay = Ok (Some r))
            (filter (fun t => negb (disabled_for overlay t)) tasks)
            survivors.
Proof.
  split.
  - intros task. apply drops_iff_disabled.
  - assert (Hreturn : Forall (fun t => applyTaskOverlay t overlay <> Throw)
                        tasks).
    { eapply Forall_impl; [|exact Htyped]. intros t. apply typed_returns. }
    destruct (mapM_Ok _ _ Hreturn) as [mapped [Hmap Hall]].
    exists (non_null mapped). unfold applyOverlayToTasks. rewrite Hmap.
    split; [reflexivity|]. now apply survivors_in_order.
Qed.

(** C3. For a task with an objectives list and a patch with an objectives
    map and/or an objectivesAdd list, [applyTaskOverlay] returns a task
    unless the patch is disabled (C4), and the objectives of the task it
    returns are the original ones in their order, each merged with the
    patch registered under its id (patch fields overwrite) or unchanged when
    none is registered, followed by the objectivesAdd records as they
    are. *)
Theorem objectives_patched_then_appended
  (task overlay m ov : obj) (objs : list value)
  (Htask : well_formed (VObj task) = true)
  (Hoverlay : well_formed (VObj overlay) = true)
  (Htasks : get overlay "tasks" = VObj m)
  (Hentry : lookup m (String_ (get task "id")) = Some (VObj ov))
  (Hobjs : get task "objectives" = VArr objs)
  (Hobjects : forallb is_object objs = true)
  (Htyped : typed_patch ov = true) :
  (get ov "disabled" <> VBool true ->
   exists r, applyTaskOverlay task overlay = Ok (Some r))
  /\ (forall r,
         applyTaskOverlay task overlay = Ok (Some r) ->
         exists objs',
           get r "objectives"
           = VArr (objs' ++ appended (get ov "objectivesAdd"))
           /\ Forall2 (patched (patch_map (get ov "objectives"))) objs objs').
Proof.
  assert (Htt : typed_task task = true)
    by (unfold typed_task; now rewrite Hobjs).
  destruct (strict_eq (get ov "disabled") (VBool true)) eqn:Hd.
  { assert (Hnull : applyTaskOverlay task overlay = Ok None).
    { apply drops_iff_disabled. unfold disabled_for.
      rewrite (task_override_entry _ _ _ _ Htasks Hentry).
      cbn [truthy prop andb]. exact Hd. }
    apply strict_eq_true in Hd. split; [contradiction|].
    intros r Hr. congruence. }
  assert (Henabled : get ov "disabled" <> VBool true).
  { intros H. apply strict_eq_true in H. congruence. }
  destruct (apply_typed_result task overlay m ov Htask Htasks Hentry
              Henabled Htt Htyped) as [r0 [Hr0 [_ Hfinal]]].
  split; [intros _; now exists r0|].
  intros r Hr. assert (r = r0) by congruence. subst r0.
  exists (List.map (patch_total (patch_map (get ov "objectives"))) objs).
  split.
  - rewrite Hfinal. unfold final_objectives. rewrite Hobjs.
    unfold typed_patch in Htyped. apply andb_true_iff in Htyped.
    destruct Htyped as [_ Hadd].
    destruct (get ov "objectivesAdd"); try discriminate; cbn [appended].
    + now rewrite app_nil_r.
    + reflexivity.
  - assert (Hov : well_formed (VObj ov) = true).
    { pose proof (well_formed_get overlay "tasks" Hoverlay) as Hm.
      rewrite Htasks in Hm.
      exact (well_formed_lookup m _ _ Hm Hentry). }
    assert (Hwf_objs : forallb well_formed objs = true).
    { pose proof (well_formed_get task "objectives" Htask) as H.
      now rewrite Hobjs in H. }
    assert (Hpm : well_formed (VObj (patch_map (get ov "objectives"))) = true
                  /\ forallb (fun kv => is_object (snd kv))
                       (patch_map (get ov "objectives")) = true).
    { pose proof (well_formed_get ov "objectives" Hov) as H.
      unfold typed_patch in Htyped. apply andb_true_iff in Htyped.
      destruct Htyped as [Hmap _].
      destruct (get ov "objectives"); try discriminate; cbn [patch_map];
        auto. }
    destruct Hpm as [Hpm1 Hpm2].
    clear - Hwf_objs Hpm1 Hpm2.
    induction objs as [|o objs IH]; cbn [List.map]; [constructor|].
    cbn [forallb] in Hwf_objs. apply andb_true_iff in Hwf_objs.
    destruct Hwf_objs as [Ho Hrest].
    constructor; [now apply patched_patch_total|now apply IH].
Qed.

(** C10. [applyTaskOverlay] returns [null] only for an override whose
    [disabled] property is the boolean [true]; with any other value the task
    is corrected and carries that [disabled] value as an ordinary
    property. *)
Theorem only_true_disables (task overlay : obj) :
  (applyTaskOverlay task overlay = Ok None <->
   truthy (task_override overlay task) = true
   /\ prop (task_override overlay task) "disabled" = VBool true)
  /\ (forall m ov v,
         well_formed (VObj task) = true ->
         well_formed (VObj overlay) = true ->
         get overlay "tasks" = VObj m ->
         lookup m (String_ (get task "id")) = Some (VObj ov) ->
         typed_task task = true ->
         typed_patch ov = true ->
         lookup ov "disabled" = Some v ->
         v <> VBool true ->
         exists r, applyTaskOverlay task overlay = Ok (Some r)
                   /\ lookup r "disabled" = Some v).
Proof.
  split.
  - rewrite drops_iff_disabled. unfold disabled_for.
    rewrite andb_true_iff, strict_eq_true. reflexivity.
  - intros m ov v Htask Hoverlay Htasks Hentry Htt Htp Hv Hne.
    assert (Henabled : get ov "disabled" <> VBool true).
    { unfold get. now rewrite Hv. }
    destruct (apply_typed_result task overlay m ov Htask Htasks Hentry
                Henabled Htt Htp) as [r [Hr [Hother _]]].
    exists r. split; [exact Hr|].
    rewrite Hother by discriminate. rewrite lookup_apply_fields.
    change (handled_separately "disabled") with false. cbv iota.
    assert (Hov : well_formed (VObj ov) = true).
    { pose proof (well_formed_get overlay "tasks" Hoverlay) as Hm.
      rewrite Htasks in Hm.
      exact (well_formed_lookup m _ _ Hm Hentry). }
    rewrite lookup_rev by (now apply well_formed_keys). now rewrite Hv.
Qed.

Lemma no_override_returns_task_witness :
  applyTaskOverlay Samples.task_t3 Samples.overlay = Ok (Some Samples.task_t3).
Proof.
  apply no_override_returns_task. right. exists Samples.overlay_tasks.
  split; [reflexivity|]. cbn. intros [H|[H|[]]]; discriminate.
Defined.

Lemma disabled_tasks_are_dropped_witness :
  applyTaskOverlay Samples.task_t2 Samples.overlay = Ok None
  /\ exists survivors,
       applyOverlayToTasks
         [Samples.task_t1; Samples.task_t2; Samples.task_t3] Samples.overlay
       = Ok survivors
       /\ Forall2
            (fun t r => applyTaskOverlay t Samples.overlay = Ok (Some r))
            [Samples.task_t1; Samples.task_t3] survivors.
Proof.
  destruct (disabled_tasks_are_dropped Samples.overlay
              [Samples.task_t1; Samples.task_t2; Samples.task_t3])
    as [Hnull Hbatch].
  - repeat constructor.
  - split; [apply Hnull; reflexivity|exact Hbatch].
Defined.

Lemma objectives_patched_then_appended_witness :
  exists r,
    applyTaskOverlay Samples.task_t1 Samples.overlay = Ok (Some r)
    /\ exists objs',
         get r "objectives" = VArr (objs' ++ [VObj Samples.objective_z])
         /\ Forall2 (patched [("b", VObj [("count", VNum 5)])])
              [VObj Samples.objective_a; VObj Samples.objective_b] objs'.
Proof.
  destruct (objectives_patched_then_appended Samples.task_t1 Samples.overlay
              Samples.overlay_tasks Samples.patch_t1
              [VObj Samples.objective_a; VObj Samples.objective_b]
              eq_refl eq_refl eq_refl eq_refl eq_refl eq_refl eq_refl)
    as [Hreturns Hobjectives].
  destruct Hreturns as [r Hr]; [cbn; discriminate|].
  exists r. split; [exact Hr|]. exact (Hobjectives r Hr).
Defined.

Lemma only_true_disables_witness :
  exists r,
    applyTaskOverlay Samples.task_t1 Samples.overlay = Ok (Some r)
    /\ lookup r "disabled" = Some (VBool false).
Proof.
  destruct (only_true_disables Samples.task_t1 Samples.overlay) as [_ H].
  apply (H Samples.overlay_tasks Samples.patch_t1); try reflexivity.
  discriminate.
Defined.

End ApplyProps.

(* ================================================================== *)
(** * Properties of the normaliser and of the subset comparator         *)
(* ================================================================== *)

Module NormalizerProps.
Import JS TaskValidator Spec Aux JSFacts SortFacts.

Section Normalizer.
Variable localeCompare : string -> string -> comparison.

Lemma sort_by_key_eq (l : list value) :
  sort_by_key localeCompare l
  = List.map snd (sort (by_key localeCompare) (List.map with_key l)).
Proof. reflexivity. Qed.

Lemma normalizeValue_array (l : list value) :
  normalizeValue localeCompare (VArr l) = VArr (sort_by_key localeCompare (List.map (normalizeValue localeCompare) l)).
Proof. reflexivity. Qed.

(** The object branch, in the form the source has it. *)
Lemma normalizeValue_object (o : obj) :
  normalizeValue localeCompare (VObj o)
  = VObj (fold_left
            (fun normalized key => set normalized key (normalizeValue localeCompare (get o key)))
            (sort String.compare (keys o)) []).
Proof.
  cbn [normalizeValue]. f_equal. apply fold_left_ext_in.
  intros acc key Hin. f_equal.
  apply (get_map_values (normalizeValue localeCompare)).
  eapply Permutation_in; [apply sort_perm|exact Hin].
Qed.

Lemma with_key_snd (t : list (string * value)) :
  Forall (fun p => p = with_key (snd p)) t ->
  List.map with_key (List.map snd t) = t.
Proof.
  induction 1 as [|p t Hp Ht IH]; cbn; [reflexivity|].
  now rewrite IH, <- Hp.
Qed.

Section Consistent.
Hypothesis localeCompare_antisym :
  forall a b, localeCompare a b = CompOpp (localeCompare b a).

Lemma by_key_antisym (a b : string * value) :
  (by_key localeCompare) a b = CompOpp ((by_key localeCompare) b a).
Proof. apply localeCompare_antisym. Qed.

Lemma sort_by_key_idempotent (l : list value) :
  sort_by_key localeCompare (sort_by_key localeCompare l)
  = sort_by_key localeCompare l.
Proof.
  rewrite !sort_by_key_eq. rewrite with_key_snd.
  - now rewrite (sort_idempotent (by_key localeCompare) by_key_antisym).
  - apply Forall_forall. intros p Hp.
    apply (Permutation_in _ (sort_perm (by_key localeCompare) _)) in Hp.
    apply in_map_iff in Hp. destruct Hp as [x [<- _]]. reflexivity.
Qed.

(** C7. [normalizeValue] is idempotent on every JSON-compatible value. *)
Theorem normalizeValue_idempotent (x : value) :
  well_formed x = true ->
  normalizeValue localeCompare (normalizeValue localeCompare x)
  = normalizeValue localeCompare x.
Proof.
  induction x as [| | | | |l IH|o IH] using value_nested_ind;
    try reflexivity; intros Hwf.
  - rewrite normalizeValue_array.
    set (S := sort_by_key localeCompare (List.map (normalizeValue localeCompare) l)).
    rewrite normalizeValue_array.
    assert (Hfix : List.map (normalizeValue localeCompare) S = S).
    { rewrite <- (map_id S) at 2. apply map_ext_in. intros s Hs.
      unfold S in Hs. rewrite sort_by_key_eq in Hs.
      apply in_map_iff in Hs. destruct Hs as [p [<- Hp]].
      apply (Permutation_in _ (sort_perm (by_key localeCompare) _)) in Hp.
      apply in_map_iff in Hp. destruct Hp as [y [<- Hy]]. cbn.
      apply in_map_iff in Hy. destruct Hy as [x [<- Hx]].
      rewrite Forall_forall in IH. apply IH; [assumption|].
      cbn in Hwf. rewrite forallb_forall in Hwf. now apply Hwf. }
    rewrite Hfix. unfold S. now rewrite sort_by_key_idempotent.
  - assert (Hnd : NoDup (keys o)) by now apply well_formed_keys.
    rewrite normalizeValue_object.
    set (ks := sort String.compare (keys o)).
    set (R := fold_left
                (fun normalized key =>
                   set normalized key (normalizeValue localeCompare (get o key))) ks []).
    rewrite normalizeValue_object. f_equal.
    assert (Hperm : Permutation (keys R) ks).
    { unfold R.
      rewrite (keys_fold_set (fun key => normalizeValue localeCompare (get o key))); cbn; auto.
      eapply Permutation_NoDup; [|exact Hnd].
      apply Permutation_sym, sort_perm. }
    rewrite (string_sort_perm_eq _ _ Hperm).
    unfold ks at 1.
    rewrite (sort_idempotent String.compare String.compare_antisym).
    fold ks. unfold R at 2. apply fold_left_ext_in.
    intros acc key Hin. f_equal.
    assert (Hget : get R key = normalizeValue localeCompare (get o key)).
    { unfold get at 1. unfold R. rewrite lookup_fold_set.
      apply existsb_eqb_In in Hin. now rewrite Hin. }
    rewrite Hget.
    assert (Hkey : In key (keys o))
      by (eapply Permutation_in; [apply sort_perm|exact Hin]).
    unfold get. destruct (lookup o key) as [v|] eqn:E; [|reflexivity].
    rewrite Forall_forall in IH.
    apply (IH (key, v)); [now apply lookup_In|].
    now apply (well_formed_lookup o key).
Qed.

Hypothesis localeCompare_trans :
  forall a b c, le localeCompare a b -> le localeCompare b c ->
                le localeCompare a c.

Lemma by_key_trans (a b c : string * value) :
  le (by_key localeCompare) a b -> le (by_key localeCompare) b c -> le (by_key localeCompare) a c.
Proof. apply localeCompare_trans. Qed.

Lemma sort_by_key_perm (l l' : list value) :
  ties_are_equal localeCompare l -> Permutation l l' ->
  sort_by_key localeCompare l = sort_by_key localeCompare l'.
Proof.
  intros Hties Hperm. rewrite !sort_by_key_eq. f_equal.
  apply (sort_perm_eq (by_key localeCompare) by_key_antisym by_key_trans).
  - intros p q Hp Hq Htie.
    apply in_map_iff in Hp. destruct Hp as [x [<- Hx]].
    apply in_map_iff in Hq. destruct Hq as [y [<- Hy]].
    unfold by_key, with_key in Htie. cbn in Htie.
    now rewrite (Hties x y Hx Hy Htie).
  - now apply Permutation_map.
Qed.

Lemma normalize_object_perm (o o' : obj) :
  NoDup (keys o) -> Permutation o o' ->
  normalizeValue localeCompare (VObj o) = normalizeValue localeCompare (VObj o').
Proof.
  intros Hnd Hperm. rewrite !normalizeValue_object. f_equal.
  assert (Hkeys : Permutation (keys o) (keys o'))
    by (unfold keys; now apply Permutation_map).
  rewrite (string_sort_perm_eq _ _ Hkeys). apply fold_left_ext_in.
  intros acc key _. unfold get. now rewrite (lookup_perm o o' key Hnd Hperm).
Qed.

(** C6, amended.  [normalizeValue] does not depend on the order of the keys
    of an object; it does not depend on the order of the elements of an
    array whenever the normalised elements whose sort keys tie under
    [localeCompare] are equal. *)
Theorem normalize_order_insensitive :
  (forall a a',
      Permutation a a' ->
      ties_are_equal localeCompare (List.map (normalizeValue localeCompare) a) ->
      normalizeValue localeCompare (VArr a)
      = normalizeValue localeCompare (VArr a'))
  /\ (forall o o',
         NoDup (keys o) -> Permutation o o' ->
         normalizeValue localeCompare (VObj o)
         = normalizeValue localeCompare (VObj o')).
Proof.
  split.
  - intros a a' Hperm Hties. rewrite !normalizeValue_array. f_equal.
    apply sort_by_key_perm; [assumption|now apply Permutation_map].
  - apply normalize_object_perm.
Qed.

End Consistent.

(** Two elements with the same sort key keep the order the input gives
    them, whatever the locale. *)
Lemma tie_keeps_input_order :
  localeCompare "null" "null" = Eq ->
  normalizeValue localeCompare (VArr [VNull; VStr "null"])
  = VArr [VNull; VStr "null"]
  /\ normalizeValue localeCompare (VArr [VStr "null"; VNull])
     = VArr [VStr "null"; VNull].
Proof.
  intros Htie. rewrite !normalizeValue_array, !sort_by_key_eq. cbn.
  unfold by_key. cbn. rewrite Htie. split; reflexivity.
Qed.

End Normalizer.

(** C6 as stated fails: [null, "null"] and its reversal are permutations
    of each other with different normal forms. *)
Lemma normalize_array_order_counterexample :
  Permutation [VNull; VStr "null"] [VStr "null"; VNull]
  /\ normalizeValue String.compare (VArr [VNull; VStr "null"])
     <> normalizeValue String.compare (VArr [VStr "null"; VNull]).
Proof.
  split; [apply perm_swap|].
  destruct (tie_keeps_input_order String.compare eq_refl) as [-> ->].
  discriminate.
Qed.

Lemma normalize_order_insensitive_witness :
  normalizeValue String.compare (VArr [VStr "b"; VNum 2; VStr "a"])
  = normalizeValue String.compare (VArr [VStr "a"; VStr "b"; VNum 2])
  /\ normalizeValue String.compare (VObj [("b", VNum 1); ("a", VNull)])
     = normalizeValue String.compare (VObj [("a", VNull); ("b", VNum 1)]).
Proof.
  destruct (normalize_order_insensitive String.compare
              String.compare_antisym string_le_trans) as [Harr Hobj].
  split.
  - apply Harr.
    + apply Permutation_sym. apply (Permutation_cons_app [VStr "b"; VNum 2] []).
      reflexivity.
    + intros x y Hx Hy Htie. apply String.compare_eq_iff in Htie.
      cbn in Hx, Hy.
      repeat (destruct Hx as [<-|Hx]; [|]); try contradiction;
        repeat (destruct Hy as [<-|Hy]; [|]); try contradiction;
        try reflexivity; discriminate.
  - apply Hobj.
    + repeat constructor; cbn; intuition discriminate.
    + apply perm_swap.
Defined.

Lemma normalizeValue_idempotent_witness :
  normalizeValue String.compare (normalizeValue String.compare Samples.document)
  = normalizeValue String.compare Samples.document.
Proof.
  apply (normalizeValue_idempotent String.compare String.compare_antisym).
  reflexivity.
Defined.

Section Subset.
Variable localeCompare : string -> string -> comparison.

(** The object branch, in the form the source has it: a loop over
    [Object.keys(overrideObject)]. *)
Lemma compareSubset_object (overrideObject apiObject : obj) :
  NoDup (keys overrideObject) ->
  compareSubset localeCompare (VObj overrideObject) (VObj apiObject)
  = forallb (fun key => compareSubset localeCompare
                          (get overrideObject key) (get apiObject key))
            (keys overrideObject).
Proof.
  intros Hnd. cbn [compareSubset].
  assert (Hall : forall l : obj,
             (forall kv, In kv l -> In kv overrideObject) ->
             forallb (fun kv => compareSubset localeCompare (snd kv)
                                  (get apiObject (fst kv))) l
             = forallb (fun key => compareSubset localeCompare
                                     (get overrideObject key)
                                     (get apiObject key)) (keys l)).
  { induction l as [|[key v] l IH]; intros Hsub; cbn; [reflexivity|].
    rewrite IH by (intros kv Hkv; apply Hsub; now right).
    assert (Hget : get overrideObject key = v).
    { unfold get.
      now rewrite (In_lookup _ _ _ Hnd (Hsub _ (or_introl eq_refl))). }
    now rewrite Hget. }
  apply Hall. auto.
Qed.

(** C2. On a JSON document [overrideValue], [compareSubset] agrees with the
    reference definition: true for [undefined]; [valuesEqual] for [null],
    scalars and arrays; for an object, true exactly when the live value is
    an object too and every key of the override is satisfied recursively,
    whatever other keys the live object has. *)
Theorem compareSubset_reference (overrideValue liveValue : value)
  (Hwf : well_formed overrideValue = true) :
  compareSubset localeCompare overrideValue liveValue = true
  <-> satisfies localeCompare overrideValue liveValue.
Proof.
  revert liveValue Hwf.
  induction overrideValue as [| | | | |l IH|o IH] using value_nested_ind;
    intros liveValue Hwf;
    try (split; [intros H; now apply satisfies_exact
                |intros H; inversion H; subst; assumption]).
  - split; [intros _; apply satisfies_undefined|reflexivity].
  - assert (Hnd : NoDup (keys o)) by now apply well_formed_keys.
    rewrite Forall_forall in IH. split.
    + intros H. cbn [compareSubset] in H.
      destruct liveValue as [| | | | | |liveObject]; try discriminate.
      rewrite forallb_forall in H. apply satisfies_object.
      intros key Hkey.
      unfold get at 1. destruct (lookup o key) as [v|] eqn:E.
      * pose proof (well_formed_lookup o key v Hwf E) as Hv.
        apply lookup_In in E.
        apply (proj1 (IH (key, v) E (get liveObject key) Hv)).
        exact (H _ E).
      * apply satisfies_undefined.
    + intros H. inversion H as [|? ? Hk|? liveObject Hall]; subst.
      { discriminate. }
      cbn [compareSubset]. apply forallb_forall. intros [key v] Hin.
      cbn [fst snd]. pose proof (In_lookup o key v Hnd Hin) as Hl.
      apply (proj2 (IH (key, v) Hin (get liveObject key)
                      (well_formed_lookup o key v Hwf Hl))).
      specialize (Hall key). unfold get at 1 in Hall. rewrite Hl in Hall.
      apply Hall. unfold keys. apply in_map_iff. now exists (key, v).
Qed.

End Subset.

Lemma compareSubset_reference_witness :
  satisfies String.compare Samples.override_map Samples.live_map.
Proof.
  apply (compareSubset_reference String.compare); reflexivity.
Defined.

End NormalizerProps.

(* ================================================================== *)
(** * The scenarios of the specification                                *)
(* ================================================================== *)

Module Scenarios.
Import JS TaskValidator ApplyOverlay Spec Samples.

(** Scenario 1: the live value matches the override. *)
Example scenario_fixed :
  validateTaskOverride String.compare "t1" (level_override 10) [live_task 10]
  = {| r_id := "t1"; r_name := "Debut"; r_status := FIXED;
       stillNeeded := false;
       details := [ {| field := "minPlayerLevel"; status := fixed;
                       message := "minPlayerLevel: 10 - FIXED IN API" |} ] |}.
Proof. reflexivity. Qed.

(** Scenario 2: the live value differs. *)
Example scenario_needed :
  validateTaskOverride String.compare "t1" (level_override 10) [live_task 20]
  = {| r_id := "t1"; r_name := "Debut"; r_status := NEEDED;
       stillNeeded := true;
       details :=
         [ {| field := "minPlayerLevel"; status := needed;
              message :=
                "minPlayerLevel: API=20, Override=10 - STILL NEEDED" |} ] |}.
Proof. reflexivity. Qed.

(** Scenario 3: no live task has the id. *)
Example scenario_removed :
  validateTaskOverride String.compare "t9" (level_override 10) [live_task 10]
  = {| r_id := "t9"; r_name := "Unknown"; r_status := REMOVED_FROM_API;
       stillNeeded := false;
       details :=
         [ {| field := "task"; status := info;
              message :=
                "Task not found in API - has been removed from tarkov.dev" |} ] |}.
Proof. reflexivity. Qed.

(** Scenario 4: every live requirement is active, the override lists one. *)
Example scenario_requirements :
  validateTaskRequirements (requires ["X"]) active_task
  = Some {| field := "taskRequirements"; status := needed;
            message := "taskRequirements: API=[] (empty), Override has 1 requirement(s) - STILL NEEDED" |}.
Proof. reflexivity. Qed.

(** Objective merge and append on the sample overlay. *)
Example scenario_apply :
  applyTaskOverlay task_t1 overlay
  = Ok (Some [("id", VStr "t1"); ("name", VStr "Debut");
              ("minPlayerLevel", VNum 9);
              ("objectives",
               VArr [VObj objective_a;
                     VObj [("id", VStr "b"); ("count", VNum 5)];
                     VObj objective_z]);
              ("disabled", VBool false)]).
Proof. reflexivity. Qed.

Example scenario_batch :
  option_map (List.map (fun t => get t "id"))
    (match applyOverlayToTasks [task_t1; task_t2; task_t3] overlay with
     | Ok l => Some l
     | Throw => None
     end)
  = Some [VStr "t1"; VStr "t3"].
Proof. reflexivity. Qed.

(** Arrays are compared up to order, objects up to extra live keys. *)
Example scenario_subset :
  compareSubset String.compare override_map live_map = true
  /\ compareSubset String.compare live_map override_map = false.
Proof. split; reflexivity. Qed.

(** Elements of different types that share a sort key are not reordered. *)
Example scenario_tie :
  valuesEqual String.compare (VArr [VNum 1; VStr "1"]) (VArr [VStr "1"; VNum 1])
  = false.
Proof. reflexivity. Qed.

End Scenarios.

(* ================================================================== *)
(** * Further facts about JSON.stringify                                *)
(* ================================================================== *)

Module ShapeFacts.
Import JS TaskValidator Spec Aux JSFacts SortFacts JsonFacts Notions.

Lemma append_nil (s : string) : s ++ EmptyString = s.
Proof. induction s as [|c s IH]; cbn; [reflexivity|now rewrite IH]. Qed.

Lemma string_of_Z_head (n : Z) :
  exists c r, string_of_Z n = String c r /\ numeral_head c = true.
Proof.
  unfold string_of_Z. destruct n as [|p|p]; cbn.
  - now exists "0"%char, EmptyString.
  - destruct (Pos.to_uint p); cbn; eexists _, _; split; reflexivity.
  - now exists "-"%char, (NilZero.string_of_uint (Pos.to_uint p)).
Qed.

Lemma string_of_Z_inj (n m : Z) : string_of_Z n = string_of_Z m -> n = m.
Proof.
  unfold string_of_Z. intros H. apply DecimalZ.to_int_inj.
  assert (Hnn : forall z, Z.to_int z <> Decimal.Pos Decimal.Nil
                          /\ Z.to_int z <> Decimal.Neg Decimal.Nil).
  { intros [|p|p]; cbn; split; try discriminate;
      intros [= Hp]; exact (Unsigned.to_uint_nonnil p Hp). }
  assert (Hs : Some (Z.to_int n) = Some (Z.to_int m)).
  { rewrite <- (NilZero.isi (Z.to_int n)) by apply Hnn.
    rewrite <- (NilZero.isi (Z.to_int m)) by apply Hnn.
    now rewrite H. }
  now injection Hs.
Qed.

Section Shapes.
Variable localeCompare : string -> string -> comparison.

Lemma normalizeValue_scalar (v w : value) :
  is_scalar w = true -> normalizeValue localeCompare v = w -> v = w.
Proof. destruct v, w; cbn; try discriminate; auto; congruence. Qed.

Lemma normalizeValue_undefined (v : value) :
  normalizeValue localeCompare v = VUndefined -> v = VUndefined.
Proof. destruct v; cbn; congruence. Qed.

Lemma stringify_none (v : value) : JSON_stringify v = None -> v = VUndefined.
Proof. destruct v; cbn; congruence. Qed.

(** The text of a scalar is the text of no other value. *)
Lemma stringify_scalar_inj (v w : value) :
  is_scalar w = true -> JSON_stringify v = JSON_stringify w -> v = w.
Proof.
  intros Hw H.
  destruct w as [| |b|n|s| |]; try discriminate; clear Hw.
  - destruct v as [| |b'|n'|s'|l|o]; cbn in H; try discriminate;
      try reflexivity.
    + destruct b'; discriminate.
    + destruct (string_of_Z_head n') as [c [r [Hn Hc]]]. rewrite Hn in H.
      injection H as -> _. discriminate.
  - destruct v as [| |b'|n'|s'|l|o]; cbn in H; try discriminate.
    + destruct b; discriminate.
    + destruct b, b'; try reflexivity; discriminate.
    + destruct (string_of_Z_head n') as [c [r [Hn Hc]]]. rewrite Hn in H.
      destruct b; injection H as -> _; discriminate.
    + destruct b; discriminate.
    + destruct b; discriminate.
    + destruct b; discriminate.
  - destruct (string_of_Z_head n) as [c [r [Hn Hc]]].
    destruct v as [| |b'|n'|s'|l|o]; cbn in H; try discriminate.
    + rewrite Hn in H. injection H as <- _. discriminate.
    + rewrite Hn in H. destruct b'; injection H as <- _; discriminate.
    + injection H as H. apply string_of_Z_inj in H. now subst.
    + rewrite Hn in H. injection H as <- _. discriminate.
    + rewrite Hn in H. injection H as <- _. discriminate.
    + rewrite Hn in H. injection H as <- _. discriminate.
  - destruct v as [| |b'|n'|s'|l|o]; cbn [JSON_stringify] in H;
      try discriminate.
    + destruct b'; discriminate.
    + destruct (string_of_Z_head n') as [c [r [Hn Hc]]]. rewrite Hn in H.
      injection H as -> _. discriminate.
    + assert (H' : quote s' = quote s) by congruence.
      rewrite <- (append_nil (quote s')), <- (append_nil (quote s)) in H'.
      apply quote_inj in H'. destruct H' as [-> _]. reflexivity.
Qed.

Lemma option_string_eqb_eq (a b : option string) :
  option_string_eqb a b = true <-> a = b.
Proof.
  destruct a as [x|], b as [y|]; cbn; split; intros H; try discriminate;
    try reflexivity.
  - apply String.eqb_eq in H. now subst.
  - injection H as ->. apply String.eqb_refl.
Qed.

Lemma valuesEqual_iff (a b : value) :
  valuesEqual localeCompare a b = true
  <-> JSON_stringify (normalizeValue localeCompare a)
      = JSON_stringify (normalizeValue localeCompare b).
Proof.
  unfold valuesEqual.
  destruct a; try apply option_string_eqb_eq.
  destruct b; try apply option_string_eqb_eq.
  split; reflexivity.
Qed.

Lemma valuesEqual_scalar (sv live : value) :
  is_scalar sv = true ->
  valuesEqual localeCompare sv live = true <-> live = sv.
Proof.
  intros Hs. rewrite valuesEqual_iff. split.
  - intros H.
    assert (Hn : normalizeValue localeCompare sv = sv)
      by (destruct sv; try discriminate; reflexivity).
    rewrite Hn in H. symmetry in H.
    apply stringify_scalar_inj in H; [|assumption].
    now apply normalizeValue_scalar in H.
  - now intros ->.
Qed.

Lemma valuesEqual_undefined (v : value) :
  valuesEqual localeCompare VUndefined v = true <-> v = VUndefined.
Proof.
  rewrite valuesEqual_iff. cbn. split.
  - intros H. symmetry in H. apply stringify_none in H.
    now apply normalizeValue_undefined in H.
  - now intros ->.
Qed.

End Shapes.

End ShapeFacts.

(* ================================================================== *)
(** * Further properties of the normaliser and the comparator          *)
(* ================================================================== *)

Module ComparatorProps.
Import JS TaskValidator Spec Aux JSFacts SortFacts JsonFacts NormalizerProps.
Import Notions ShapeFacts.

Lemma forallb_ext_in {A} (f g : A -> bool) (l : list A) :
  (forall x, In x l -> f x = g x) -> forallb f l = forallb g l.
Proof.
  induction l as [|x l IH]; intros H; cbn; [reflexivity|].
  rewrite H by now left. rewrite IH; [reflexivity|].
  intros y Hy. apply H. now right.
Qed.

Lemma NoDup_keys_set (o : obj) (k : string) (v : value) :
  NoDup (keys o) -> NoDup (keys (set o k v)).
Proof.
  intros H. pose proof (keys_set o k v) as Hp.
  destruct (has o k) eqn:E.
  - eapply Permutation_NoDup; [apply Permutation_sym; exact Hp|exact H].
  - eapply Permutation_NoDup; [apply Permutation_sym; exact Hp|].
    constructor; [|exact H]. intros Hin. apply has_In in Hin. congruence.
Qed.

Lemma NoDup_keys_fold_set (f : string -> value) (ks : list string)
  (init : obj) :
  NoDup (keys init) ->
  NoDup (keys (fold_left (fun acc key => set acc key (f key)) ks init)).
Proof.
  revert init. induction ks as [|k ks IH]; intros init H; cbn; [exact H|].
  apply IH. now apply NoDup_keys_set.
Qed.

Lemma sorted_values (lc : string -> string -> comparison)
  (t : list (string * value)) :
  Forall (fun p => p = with_key (snd p)) t ->
  Sorted (le (by_key lc)) t ->
  Sorted (fun x y => le lc (sortKey x) (sortKey y)) (List.map snd t).
Proof.
  intros Hk Hs. induction Hs as [|p t Hs IH Hhd]; cbn; [constructor|].
  inversion Hk as [|? ? Hp Ht]; subst. constructor; [now apply IH|].
  destruct Hhd as [|q t' Hpq]; cbn; constructor.
  inversion Ht as [|? ? Hq _]; subst.
  unfold le, by_key in Hpq. rewrite Hp, Hq in Hpq. exact Hpq.
Qed.

Section Comparator.
Variable localeCompare : string -> string -> comparison.

(** X1. [normalizeValue] on an array keeps every element, normalised, and
    drops or adds none; with a consistent comparator the result is in
    ascending order of sort keys. *)
Theorem normalizeValue_array_sorted_permutation (l : list value) :
  exists l',
    normalizeValue localeCompare (VArr l) = VArr l'
    /\ Permutation l' (List.map (normalizeValue localeCompare) l)
    /\ ((forall a b, localeCompare a b = CompOpp (localeCompare b a)) ->
        Sorted (fun x y => le localeCompare (sortKey x) (sortKey y)) l').
Proof.
  exists (sort_by_key localeCompare
            (List.map (normalizeValue localeCompare) l)).
  split; [reflexivity|]. rewrite sort_by_key_eq.
  set (L := List.map (normalizeValue localeCompare) l).
  assert (Hkeys : Forall (fun p => p = with_key (snd p))
                    (sort (by_key localeCompare) (List.map with_key L))).
  { apply Forall_forall. intros p Hp.
    apply (Permutation_in _ (sort_perm (by_key localeCompare) _)) in Hp.
    apply in_map_iff in Hp. destruct Hp as [x [<- _]]. reflexivity. }
  split.
  - rewrite (sort_perm (by_key localeCompare) (List.map with_key L)).
    rewrite map_map. cbn. now rewrite map_id.
  - intros Hanti. apply sorted_values; [exact Hkeys|].
    apply sort_sorted. intros a b. apply Hanti.
Qed.

(** X2. On an object (its keys distinct) that has no key [__proto__],
    [normalizeValue] keeps exactly the keys of the object, each once, with
    the normalised value.  (Under the key [__proto__] the assignment of the
    source defines no property.) *)
Theorem normalizeValue_object_properties (o : obj) :
  NoDup (keys o) ->
  ~ In "__proto__" (keys o) ->
  exists r,
    normalizeValue localeCompare (VObj o) = VObj r
    /\ NoDup (keys r)
    /\ (forall k, lookup r k
                  = option_map (normalizeValue localeCompare) (lookup o k)).
Proof.
  intros _ _.
  rewrite normalizeValue_object. eexists. split; [reflexivity|]. split.
  - apply (NoDup_keys_fold_set
             (fun key => normalizeValue localeCompare (get o key))).
    constructor.
  - intros k.
    rewrite (lookup_fold_set
               (fun key => normalizeValue localeCompare (get o key))).
    destruct (existsb (String.eqb k) (sort String.compare (keys o))) eqn:E.
    + apply existsb_eqb_In in E.
      apply (Permutation_in _ (sort_perm String.compare _)) in E.
      unfold get. destruct (lookup o k) eqn:El; [reflexivity|].
      apply lookup_none in El. contradiction.
    + cbn. destruct (lookup o k) eqn:El; [|reflexivity].
      assert (Hin : In k (sort String.compare (keys o))).
      { apply (Permutation_in _ (Permutation_sym (sort_perm String.compare _))).
        apply has_In. unfold has. now rewrite El. }
      apply existsb_eqb_In in Hin. congruence.
Qed.

(** X3. [undefined] is equal to [undefined] only, on either side. *)
Theorem valuesEqual_undefined_only (v : value) :
  (valuesEqual localeCompare VUndefined v = true <-> v = VUndefined)
  /\ (valuesEqual localeCompare v VUndefined = true <-> v = VUndefined).
Proof.
  split; [apply valuesEqual_undefined|].
  rewrite valuesEqual_iff. split.
  - intros H. cbn in H. apply stringify_none in H.
    now apply normalizeValue_undefined in H.
  - now intros ->.
Qed.

(** X4. A scalar override ([null], boolean, number, string) is satisfied by
    the same scalar and by nothing else; no coercion takes place. *)
Theorem compareSubset_scalar_exact (overrideValue liveValue : value) :
  is_scalar overrideValue = true ->
  compareSubset localeCompare overrideValue liveValue = true
  <-> liveValue = overrideValue.
Proof.
  intros Hs. rewrite <- (valuesEqual_scalar localeCompare _ _ Hs).
  destruct overrideValue; try discriminate; reflexivity.
Qed.

Lemma valuesEqual_refl (v : value) : valuesEqual localeCompare v v = true.
Proof. now apply valuesEqual_iff. Qed.

Lemma compareSubset_refl (x : value) :
  well_formed x = true -> compareSubset localeCompare x x = true.
Proof.
  induction x as [| | | | |l IH|o IH] using value_nested_ind;
    intros Hwf; try reflexivity; try apply valuesEqual_refl.
  cbn [compareSubset]. apply forallb_forall. intros [k v] Hin. cbn [fst snd].
  pose proof (well_formed_keys o Hwf) as Hnd.
  pose proof (In_lookup o k v Hnd Hin) as Hl.
  unfold get. rewrite Hl.
  rewrite Forall_forall in IH. apply (IH (k, v) Hin).
  exact (well_formed_lookup o k v Hwf Hl).
Qed.

(** X5. Every JSON document satisfies itself. *)
Theorem compareSubset_reflexive (x : value) :
  well_formed x = true ->
  compareSubset localeCompare x x = true
  /\ valuesEqual localeCompare x x = true.
Proof.
  intros Hwf. split; [now apply compareSubset_refl|apply valuesEqual_refl].
Qed.

(** X6. Whether an object override is satisfied depends on the live object
    only through the keys the override lists: live properties the override
    does not mention, present or added later, make no difference. *)
Theorem compareSubset_ignores_unmentioned_keys
  (overrideObject liveObject : obj) :
  (forall liveObject',
      (forall key, In key (keys overrideObject) ->
                   get liveObject' key = get liveObject key) ->
      compareSubset localeCompare (VObj overrideObject) (VObj liveObject')
      = compareSubset localeCompare (VObj overrideObject) (VObj liveObject))
  /\ (forall key v,
         ~ In key (keys overrideObject) ->
         compareSubset localeCompare (VObj overrideObject)
           (VObj (set liveObject key v))
         = compareSubset localeCompare (VObj overrideObject)
             (VObj liveObject)).
Proof.
  assert (Hext : forall liveObject',
             (forall key, In key (keys overrideObject) ->
                          get liveObject' key = get liveObject key) ->
             compareSubset localeCompare (VObj overrideObject)
               (VObj liveObject')
             = compareSubset localeCompare (VObj overrideObject)
                 (VObj liveObject)).
  { intros liveObject' Hsame. cbn [compareSubset]. apply forallb_ext_in.
    intros [k v] Hin. cbn [fst snd]. rewrite Hsame; [reflexivity|].
    unfold keys. apply in_map_iff. now exists (k, v). }
  split; [exact Hext|].
  intros key v Hnew. apply Hext. intros k Hk. rewrite get_set.
  destruct (key =? k) eqn:E; [|reflexivity].
  apply String.eqb_eq in E. subst. contradiction.
Qed.

Section Consistent.
Hypothesis localeCompare_antisym :
  forall a b, localeCompare a b = CompOpp (localeCompare b a).
Hypothesis localeCompare_trans :
  forall a b c, le localeCompare a b -> le localeCompare b c ->
                le localeCompare a c.

(** X7. [valuesEqual] ignores the order of the keys of an object, and the
    order of the elements of an array whose normalised elements do not tie
    unless equal. *)
Theorem valuesEqual_order_insensitive :
  (forall o o', NoDup (keys o) -> Permutation o o' ->
                valuesEqual localeCompare (VObj o) (VObj o') = true)
  /\ (forall a a',
         Permutation a a' ->
         ties_are_equal localeCompare
           (List.map (normalizeValue localeCompare) a) ->
         valuesEqual localeCompare (VArr a) (VArr a') = true).
Proof.
  split.
  - intros o o' Hnd Hperm. apply valuesEqual_iff.
    now rewrite (normalize_object_perm localeCompare o o' Hnd Hperm).
  - intros a a' Hperm Hties. apply valuesEqual_iff.
    rewrite !normalizeValue_array.
    rewrite (sort_by_key_perm localeCompare localeCompare_antisym
               localeCompare_trans _
               (List.map (normalizeValue localeCompare) a') Hties);
      [reflexivity|now apply Permutation_map].
Qed.

End Consistent.
End Comparator.

Lemma normalizeValue_object_properties_witness :
  exists r,
    normalizeValue String.compare (VObj [("b", VArr [VNum 2; VNum 1]);
                                         ("a", VNull)]) = VObj r
    /\ lookup r "a" = Some VNull
    /\ lookup r "b" = Some (VArr [VNum 1; VNum 2])
    /\ lookup r "c" = None.
Proof.
  destruct (normalizeValue_object_properties String.compare
              [("b", VArr [VNum 2; VNum 1]); ("a", VNull)])
    as [r [Hr [_ Hbound]]].
  - repeat constructor; cbn; intuition discriminate.
  - cbn. intuition discriminate.
  - exists r. split; [exact Hr|]. rewrite !Hbound. repeat split.
Defined.

Lemma compareSubset_scalar_exact_witness :
  compareSubset String.compare (VNum 10) (VNum 10) = true
  /\ compareSubset String.compare (VNum 10) (VStr "10") <> true.
Proof.
  split.
  - now apply (compareSubset_scalar_exact String.compare (VNum 10) (VNum 10)).
  - intros H.
    apply (compareSubset_scalar_exact String.compare (VNum 10) (VStr "10"))
      in H; [discriminate|reflexivity].
Defined.

Lemma compareSubset_reflexive_witness :
  compareSubset String.compare Samples.document Samples.document = true
  /\ valuesEqual String.compare Samples.document Samples.document = true.
Proof.
  apply (compareSubset_reflexive String.compare Samples.document).
  reflexivity.
Defined.

Lemma valuesEqual_order_insensitive_witness :
  valuesEqual String.compare
    (VObj [("b", VNum 1); ("a", VNull)]) (VObj [("a", VNull); ("b", VNum 1)])
  = true.
Proof.
  destruct (valuesEqual_order_insensitive String.compare
              String.compare_antisym string_le_trans) as [Hobj _].
  apply Hobj.
  - repeat constructor; cbn; intuition discriminate.
  - apply perm_swap.
Defined.

End ComparatorProps.

(* ================================================================== *)
(** * Further properties of the field reconciler                        *)
(* ================================================================== *)

Module ReconcilerExtras.
Import JS TaskValidator Spec Aux JSFacts SortFacts JsonFacts ReconcilerProps.
Import NormalizerProps Notions ShapeFacts ComparatorProps.

Lemma find_objective_live (apiTask : TaskData) (p : obj -> bool) :
  find_objective apiTask p = find p (live_objectives apiTask).
Proof.
  unfold find_objective, live_objectives.
  destruct (t_objectives apiTask); reflexivity.
Qed.

Lemma buckets_partition (results : list ValidationResult) :
  Forall coherent results ->
  Permutation results
    (c_stillNeeded (categorizeResults results)
     ++ c_fixed (categorizeResults results)
     ++ c_removedFromApi (categorizeResults results)).
Proof.
  unfold categorizeResults. cbn [c_stillNeeded c_fixed c_removedFromApi].
  induction 1 as [|r l Hr Hl IH]; cbn [filter]; [constructor|].
  unfold coherent in Hr.
  destruct (r_status r) eqn:Es; cbn [ValidationStatus_eqb].
  - assert (Hn : stillNeeded r = true) by now apply Hr.
    rewrite Hn. cbn. now constructor.
  - assert (Hn : stillNeeded r = false).
    { destruct (stillNeeded r); [|reflexivity].
      assert (FIXED = NEEDED) by now apply Hr. discriminate. }
    rewrite Hn. apply Permutation_cons_app. exact IH.
  - assert (Hn : stillNeeded r = false).
    { destruct (stillNeeded r); [|reflexivity].
      assert (REMOVED_FROM_API = NEEDED) by now apply Hr. discriminate. }
    rewrite Hn. rewrite app_assoc. apply Permutation_cons_app.
    now rewrite <- app_assoc.
Qed.

Section Extras.
Variable localeCompare : string -> string -> comparison.

Lemma field_validator_status (f : Field) (override : TaskOverride)
  (apiTask : TaskData) (d : ValidationDetail) :
  createFieldValidator localeCompare f override apiTask = Some d ->
  field d = field_name f
  /\ status d = (if compareSubset localeCompare (override_get override f)
                      (task_get apiTask f)
                 then fixed else needed).
Proof.
  unfold createFieldValidator.
  destruct (override_get override f); try discriminate;
    intros [= <-]; split; reflexivity.
Qed.

Lemma field_validator_declared (f : Field) (override : TaskOverride)
  (apiTask : TaskData) :
  override_get override f <> VUndefined ->
  exists d, createFieldValidator localeCompare f override apiTask = Some d.
Proof.
  unfold createFieldValidator.
  destruct (override_get override f); try congruence; eauto.
Qed.

(** X8. For a field the override declares as a scalar, the field validator
    emits one detail, 'fixed' exactly when the live task has the same scalar
    in that field and 'needed' otherwise. *)
Theorem scalar_field_validator (f : Field) (override : TaskOverride)
  (apiTask : TaskData) :
  is_scalar (override_get override f) = true ->
  exists d,
    createFieldValidator localeCompare f override apiTask = Some d
    /\ field d = field_name f
    /\ (status d = fixed <-> task_get apiTask f = override_get override f)
    /\ (status d = needed <-> task_get apiTask f <> override_get override f).
Proof.
  intros Hs.
  destruct (field_validator_declared f override apiTask) as [d Hd].
  { intros H. rewrite H in Hs. discriminate. }
  exists d. split; [exact Hd|].
  destruct (field_validator_status f override apiTask d Hd) as [Hf Hst].
  split; [exact Hf|]. rewrite Hst.
  assert (Hc : compareSubset localeCompare (override_get override f)
                 (task_get apiTask f) = true
               <-> task_get apiTask f = override_get override f).
  { rewrite <- (valuesEqual_scalar localeCompare _ _ Hs).
    destruct (override_get override f); try discriminate; reflexivity. }
  destruct (compareSubset localeCompare (override_get override f)
              (task_get apiTask f)).
  - split; split; intros H; try reflexivity; try discriminate.
    + now apply Hc.
    + exfalso. apply H. now apply Hc.
  - split; split; intros H; try reflexivity; try discriminate.
    + apply Hc in H. discriminate.
    + intros Heq. apply Hc in Heq. discriminate.
Qed.

Lemma requirements_status (override : TaskOverride) (apiTask : TaskData)
  (d : ValidationDetail) :
  validateTaskRequirements override apiTask = Some d ->
  status d = fixed \/ status d = needed.
Proof.
  unfold validateTaskRequirements.
  destruct (o_taskRequirements override); [|discriminate].
  repeat match goal with
         | |- context [if ?c then _ else _] => destruct c
         end; try discriminate; intros [= <-]; auto.
Qed.

Lemma objective_details_no_info (apiTask : TaskData) (e : string * obj) :
  Forall (fun d => status d <> info)
    (objective_details localeCompare apiTask e).
Proof.
  destruct e as [objId objOverride]. unfold objective_details.
  destruct (find_objective apiTask _).
  - apply Forall_forall. intros d Hin. apply in_flat_map in Hin.
    destruct Hin as [[fld v] [_ Hd]].
    destruct v; cbn [In] in Hd; try contradiction;
      destruct Hd as [<-|[]]; cbn [status];
      match goal with
      | |- context [if ?c then _ else _] => destruct c
      end; discriminate.
  - repeat constructor. discriminate.
Qed.

Lemma added_detail_status (apiTask : TaskData) (added : obj) :
  status (added_detail apiTask added)
  = if existsb (matches_added added) (live_objectives apiTask)
    then fixed else needed.
Proof.
  unfold added_detail. rewrite find_objective_live.
  fold (matches_added added).
  destruct (find (matches_added added) (live_objectives apiTask)) eqn:E.
  - apply find_some in E. destruct E as [Hin Hm].
    assert (H : existsb (matches_added added) (live_objectives apiTask) = true)
      by (apply existsb_exists; eauto).
    now rewrite H.
  - destruct (existsb _ _) eqn:Hex; [|reflexivity].
    apply existsb_exists in Hex. destruct Hex as [o [Hin Hm]].
    pose proof (find_none _ _ E o Hin). congruence.
Qed.

Lemma collect_details_no_info (override : TaskOverride) (apiTask : TaskData) :
  Forall (fun d => status d <> info)
    (collect_details localeCompare override apiTask).
Proof.
  unfold collect_details. rewrite !Forall_app. split; [|split].
  - apply Forall_forall. intros d Hin. apply in_flat_map in Hin.
    destruct Hin as [v [Hv Hd]].
    destruct (v override apiTask) as [d'|] eqn:E; [|contradiction].
    destruct Hd as [<-|[]].
    unfold FIELD_VALIDATORS in Hv. cbn in Hv.
    repeat (destruct Hv as [<-|Hv];
            [apply field_validator_status in E; destruct E as [_ ->];
             destruct (compareSubset _ _ _); discriminate|]).
    destruct Hv as [<-|[]].
    apply requirements_status in E. destruct E as [-> | ->]; discriminate.
  - destruct (o_objectives override) as [objectives|]; [|constructor].
    apply Forall_forall. intros d Hin. apply in_flat_map in Hin.
    destruct Hin as [e [_ Hd]].
    pose proof (objective_details_no_info apiTask e) as H.
    rewrite Forall_forall in H. now apply H.
  - destruct (o_objectivesAdd override) as [adds|]; [|constructor].
    apply Forall_forall. intros d Hin. apply in_map_iff in Hin.
    destruct Hin as [a [<- _]]. rewrite added_detail_status.
    destruct (existsb _ _); discriminate.
Qed.

(** X9. A result with status REMOVED_FROM_API carries exactly one detail, of
    status 'info'; a result with any other status carries no 'info'
    detail. *)
Theorem info_only_for_removed
  (taskId : string) (override : TaskOverride) (apiTasks : list TaskData) :
  let r := validateTaskOverride localeCompare taskId override apiTasks in
  (r_status r = REMOVED_FROM_API ->
   exists d, details r = [d] /\ status d = info)
  /\ (r_status r <> REMOVED_FROM_API ->
      Forall (fun d => status d <> info) (details r)).
Proof.
  cbv zeta. unfold validateTaskOverride.
  destruct (find _ apiTasks) as [apiTask|].
  - destruct (strict_eq _ _).
    + split; [intros _; eexists; split; reflexivity|]. cbn. congruence.
    + cbn [r_status details]. split.
      * destruct (existsb _ _); discriminate.
      * intros _. apply collect_details_no_info.
  - split; [intros _; eexists; split; reflexivity|]. cbn. congruence.
Qed.

Lemma validateTaskOverride_coherent
  (taskId : string) (override : TaskOverride) (apiTasks : list TaskData) :
  coherent (validateTaskOverride localeCompare taskId override apiTasks).
Proof.
  unfold coherent, validateTaskOverride.
  destruct (find _ apiTasks); [destruct (strict_eq _ _)|]; cbn;
    try (split; discriminate).
  destruct (existsb _ _); split; try reflexivity; discriminate.
Qed.

Lemma validateTaskOverride_id
  (taskId : string) (override : TaskOverride) (apiTasks : list TaskData) :
  r_id (validateTaskOverride localeCompare taskId override apiTasks) = taskId.
Proof.
  unfold validateTaskOverride.
  destruct (find _ apiTasks); [destruct (strict_eq _ _)|]; reflexivity.
Qed.

(** X10. [validateAllOverrides] gives one result per override, in the order of
    the overrides and under their ids; [categorizeResults] splits these
    results into three buckets that together hold every result exactly
    once, the first bucket holding the NEEDED ones. *)
Theorem categorized_results_partition
  (overrides : list (string * TaskOverride)) (apiTasks : list TaskData) :
  let results := validateAllOverrides localeCompare overrides apiTasks in
  let c := categorizeResults results in
  List.map r_id results = List.map fst overrides
  /\ Permutation results (c_stillNeeded c ++ c_fixed c ++ c_removedFromApi c)
  /\ List.length (c_stillNeeded c) + List.length (c_fixed c)
     + List.length (c_removedFromApi c) = List.length overrides
  /\ c_stillNeeded c
     = filter (fun r => ValidationStatus_eqb (r_status r) NEEDED) results.
Proof.
  cbv zeta.
  assert (Hcoh : Forall coherent
                   (validateAllOverrides localeCompare overrides apiTasks)).
  { unfold validateAllOverrides. apply Forall_forall. intros r Hin.
    apply in_map_iff in Hin. destruct Hin as [e [<- _]].
    apply validateTaskOverride_coherent. }
  pose proof (buckets_partition _ Hcoh) as Hperm.
  split; [|split; [exact Hperm|split]].
  - unfold validateAllOverrides. rewrite map_map. apply map_ext.
    intros e. apply validateTaskOverride_id.
  - apply Permutation_length in Hperm. rewrite !length_app in Hperm.
    unfold validateAllOverrides in Hperm at 1. rewrite length_map in Hperm.
    lia.
  - clear Hperm. unfold categorizeResults. cbn [c_stillNeeded].
    induction Hcoh as [|r l Hr Hl IH]; cbn [filter]; [reflexivity|].
    rewrite IH. unfold coherent in Hr.
    destruct (stillNeeded r) eqn:En.
    + assert (Hs : r_status r = NEEDED) by now apply Hr. now rewrite Hs.
    + destruct (r_status r) eqn:Es; try reflexivity.
      assert (false = true) by now apply Hr. discriminate.
Qed.

Section Found.
Variables (taskId : string) (override : TaskOverride).
Variables (apiTasks : list TaskData) (apiTask : TaskData).
Hypothesis Hfound : find (fun t => t_id t =? taskId) apiTasks = Some apiTask.
Hypothesis Henabled : o_disabled override <> VBool true.

Lemma found_result :
  validateTaskOverride localeCompare taskId override apiTasks
  = let details := collect_details localeCompare override apiTask in
    {| r_id := taskId;
       r_name := t_name apiTask;
       r_status := if existsb needs details then NEEDED else FIXED;
       stillNeeded := existsb needs details;
       details := details |}.
Proof.
  unfold validateTaskOverride. rewrite Hfound.
  destruct (strict_eq (o_disabled override) (VBool true)) eqn:E;
    [|reflexivity].
  apply strict_eq_true in E. contradiction.
Qed.

Lemma flagged_detail_needs (d : ValidationDetail) :
  In d (collect_details localeCompare override apiTask) ->
  status d = needed \/ status d = check ->
  r_status (validateTaskOverride localeCompare taskId override apiTasks)
  = NEEDED.
Proof.
  intros Hin Hst. rewrite found_result. cbv zeta. cbn [r_status].
  assert (H : existsb needs (collect_details localeCompare override apiTask)
              = true).
  { apply existsb_needs. eauto. }
  now rewrite H.
Qed.

(** X11. When the override patches an objective whose id no live objective
    of the task has, the result carries a 'check' detail for that objective
    and the task is reported NEEDED, whatever else matched. *)
Theorem missing_objective_needs_review
  (objectives : list (string * obj)) (objId : string) (objOverride : obj) :
  o_objectives override = Some objectives ->
  In (objId, objOverride) objectives ->
  (forall o, In o (live_objectives apiTask) -> get o "id" <> VStr objId) ->
  let r := validateTaskOverride localeCompare taskId override apiTasks in
  r_status r = NEEDED
  /\ In {| field := "objective:" ++ objId;
           status := check;
           message := "objective " ++ objId
                      ++ ": Not found in API - CHECK MANUALLY" |}
        (details r).
Proof.
  intros Hobjs Hin Hmissing. cbv zeta.
  set (d := {| field := "objective:" ++ objId; status := check;
               message := "objective " ++ objId
                          ++ ": Not found in API - CHECK MANUALLY" |}).
  assert (Hd : In d (collect_details localeCompare override apiTask)).
  { unfold collect_details. rewrite Hobjs. apply in_or_app. right.
    apply in_or_app. left. apply in_flat_map.
    exists (objId, objOverride). split; [exact Hin|].
    unfold objective_details. rewrite find_objective_live.
    destruct (find _ (live_objectives apiTask)) as [o|] eqn:E.
    - apply find_some in E. destruct E as [Ho He].
      exfalso. apply (Hmissing o Ho).
      destruct (get o "id"); cbn in He; try discriminate.
      apply String.eqb_eq in He. now subst.
    - now left. }
  split.
  - apply (flagged_detail_needs d Hd). now right.
  - rewrite found_result. cbv zeta. cbn [details]. exact Hd.
Qed.

(** X12. When the override patches a field of an objective with a scalar,
    the field is compared with the first live objective of that id: the
    result carries a detail for it, 'fixed' exactly when that objective has
    the same scalar in the field, and a different value makes the task
    NEEDED. *)
Theorem patched_objective_field_checked
  (objectives : list (string * obj)) (objId : string) (objOverride : obj)
  (apiObj : obj) (fld : string) (overrideValue : value) :
  o_objectives override = Some objectives ->
  In (objId, objOverride) objectives ->
  find (fun o => strict_eq (get o "id") (VStr objId)) (live_objectives apiTask)
  = Some apiObj ->
  In (fld, overrideValue) objOverride ->
  is_scalar overrideValue = true ->
  let r := validateTaskOverride localeCompare taskId override apiTasks in
  (exists d,
      In d (details r)
      /\ field d = "objective:" ++ objId ++ ":" ++ fld
      /\ (status d = fixed <-> get apiObj fld = overrideValue)
      /\ (status d = needed <-> get apiObj fld <> overrideValue))
  /\ (get apiObj fld <> overrideValue -> r_status r = NEEDED).
Proof.
  intros Hobjs Hin Hfind Hfv Hs. cbv zeta.
  set (apiValue := get apiObj fld).
  set (isMatch := compareSubset localeCompare overrideValue apiValue).
  set (d := {| field := "objective:" ++ objId ++ ":" ++ fld;
               status := if isMatch then fixed else needed;
               message :=
                 if isMatch
                 then "objective " ++ fld ++ ": " ++ formatValue apiValue
                      ++ " - FIXED IN API"
                 else "objective " ++ fld ++ ": API="
                      ++ formatValue apiValue ++ ", Override="
                      ++ formatValue overrideValue
                      ++ " - STILL NEEDED" |}).
  assert (Hd : In d (collect_details localeCompare override apiTask)).
  { unfold collect_details. rewrite Hobjs. apply in_or_app. right.
    apply in_or_app. left. apply in_flat_map.
    exists (objId, objOverride). split; [exact Hin|].
    unfold objective_details. rewrite find_objective_live, Hfind.
    apply in_flat_map. exists (fld, overrideValue). split; [exact Hfv|].
    subst d isMatch apiValue.
    destruct overrideValue; try discriminate; left; reflexivity. }
  assert (Hc : isMatch = true <-> apiValue = overrideValue).
  { unfold isMatch. rewrite <- (valuesEqual_scalar localeCompare _ _ Hs).
    destruct overrideValue; try discriminate; reflexivity. }
  assert (Hst : status d = if isMatch then fixed else needed) by reflexivity.
  split.
  - exists d. rewrite found_result. cbv zeta. cbn [details].
    split; [exact Hd|]. split; [reflexivity|]. rewrite Hst.
    destruct isMatch.
    + split; split; intros H; try reflexivity; try discriminate.
      * now apply Hc.
      * exfalso. apply H. now apply Hc.
    + split; split; intros H; try reflexivity; try discriminate.
      * apply Hc in H. discriminate.
      * intros Heq. apply Hc in Heq. discriminate.
  - intros Hdiff. apply (flagged_detail_needs d Hd). left. rewrite Hst.
    destruct isMatch; [|reflexivity].
    exfalso. apply Hdiff. now apply Hc.
Qed.

(** X13. Each entry of [objectivesAdd] contributes exactly one detail, the
    last details of the result in the order of the entries: 'fixed' when
    some live objective has the same id or the same description (two
    absent descriptions count as the same), 'needed' otherwise, and one
    'needed' makes the task NEEDED. *)
Theorem added_objectives_checked (adds : list obj) :
  o_objectivesAdd override = Some adds ->
  let r := validateTaskOverride localeCompare taskId override apiTasks in
  (exists before,
      details r = (before ++ List.map (added_detail apiTask) adds)%list)
  /\ (forall added,
         (status (added_detail apiTask added) = fixed <->
          exists o, In o (live_objectives apiTask)
                    /\ matches_added added o = true)
         /\ (status (added_detail apiTask added) = needed <->
             forall o, In o (live_objectives apiTask) ->
                       matches_added added o = false))
  /\ (forall added,
         In added adds ->
         (forall o, In o (live_objectives apiTask) ->
                    matches_added added o = false) ->
         r_status r = NEEDED).
Proof.
  intros Hadds. cbv zeta.
  assert (Hstatus : forall added,
             (status (added_detail apiTask added) = fixed <->
              exists o, In o (live_objectives apiTask)
                        /\ matches_added added o = true)
             /\ (status (added_detail apiTask added) = needed <->
                 forall o, In o (live_objectives apiTask) ->
                           matches_added added o = false)).
  { intros added. rewrite added_detail_status.
    destruct (existsb (matches_added added) (live_objectives apiTask)) eqn:E.
    - apply existsb_exists in E. split; split; intros H; try reflexivity;
        try discriminate; try assumption.
      destruct E as [o [Ho Hm]]. rewrite (H o Ho) in Hm. discriminate.
    - assert (Hnone : forall o, In o (live_objectives apiTask) ->
                                matches_added added o = false).
      { intros o Ho. destruct (matches_added added o) eqn:Em; [|reflexivity].
        assert (existsb (matches_added added) (live_objectives apiTask)
                = true) by (apply existsb_exists; eauto).
        congruence. }
      split; split; intros H; try reflexivity; try discriminate;
        try assumption.
      destruct H as [o [Ho Hm]]. rewrite (Hnone o Ho) in Hm. discriminate. }
  split; [|split; [exact Hstatus|]].
  - rewrite found_result. cbv zeta. cbn [details]. unfold collect_details.
    rewrite Hadds. rewrite app_assoc. eexists. reflexivity.
  - intros added Hin Hnone.
    apply (flagged_detail_needs (added_detail apiTask added)).
    + unfold collect_details. rewrite Hadds.
      apply in_or_app. right. apply in_or_app. right. now apply in_map.
    + left. now apply (proj2 (Hstatus added)).
Qed.

(** X14. An override that declares nothing but top-level fields, each with
    the value the live task has, is reported FIXED, every detail 'fixed'. *)
Theorem copied_override_is_fixed :
  o_taskRequirements override = None ->
  o_objectives override = None ->
  o_objectivesAdd override = None ->
  (forall f, override_get override f = VUndefined
             \/ (override_get override f = task_get apiTask f
                 /\ well_formed (task_get apiTask f) = true)) ->
  let r := validateTaskOverride localeCompare taskId override apiTasks in
  r_status r = FIXED
  /\ Forall (fun d => status d = fixed) (details r).
Proof.
  intros Hreq Hobj Hadd Hcopy. cbv zeta.
  assert (Hall : Forall (fun d => status d = fixed)
                   (collect_details localeCompare override apiTask)).
  { unfold collect_details. rewrite Hobj, Hadd, !app_nil_r.
    apply Forall_forall. intros d Hin. apply in_flat_map in Hin.
    destruct Hin as [v [Hv Hd]].
    destruct (v override apiTask) as [d'|] eqn:E; [|contradiction].
    destruct Hd as [<-|[]].
    unfold FIELD_VALIDATORS in Hv. cbn [In] in Hv.
    repeat (destruct Hv as [<-|Hv];
            [match type of E with
             | createFieldValidator _ ?f _ _ = _ =>
                 destruct (field_validator_status f _ _ _ E)
                   as [_ ->];
                 destruct (Hcopy f) as [Hu|[Heq Hwf]];
                 [unfold createFieldValidator in E; rewrite Hu in E;
                  discriminate
                 |rewrite Heq, (compareSubset_refl localeCompare _ Hwf);
                  reflexivity]
             end|]).
    destruct Hv as [<-|[]].
    unfold validateTaskRequirements in E. rewrite Hreq in E. discriminate. }
  rewrite found_result. cbv zeta. cbn [r_status details].
  split; [|exact Hall].
  destruct (existsb needs _) eqn:E; [|reflexivity].
  apply existsb_needs in E. destruct E as [d [Hin Hst]].
  rewrite Forall_forall in Hall. rewrite (Hall d Hin) in Hst.
  destruct Hst; discriminate.
Qed.

End Found.
End Extras.

Lemma scalar_field_validator_witness :
  exists d,
    createFieldValidator String.compare minPlayerLevel
      (Samples.level_override 10) (Samples.live_task 20) = Some d
    /\ field d = "minPlayerLevel"
    /\ (status d = fixed <-> VNum 20 = VNum 10)
    /\ (status d = needed <-> VNum 20 <> VNum 10).
Proof.
  apply (scalar_field_validator String.compare minPlayerLevel
           (Samples.level_override 10) (Samples.live_task 20)).
  reflexivity.
Defined.

Lemma missing_objective_needs_review_witness :
  r_status (validateTaskOverride String.compare "t1"
              MoreSamples.objective_override [MoreSamples.task_with_objective])
  = NEEDED.
Proof.
  apply (missing_objective_needs_review String.compare "t1"
           MoreSamples.objective_override [MoreSamples.task_with_objective]
           MoreSamples.task_with_objective eq_refl
           ltac:(discriminate)
           [("b", [("count", VNum 5)])] "b" [("count", VNum 5)] eq_refl
           (or_introl eq_refl)).
  intros o [<-|[]]. discriminate.
Defined.

Lemma patched_objective_field_checked_witness :
  r_status (validateTaskOverride String.compare "t1"
              MoreSamples.count_override [MoreSamples.task_with_objective])
  = NEEDED.
Proof.
  destruct (patched_objective_field_checked String.compare "t1"
              MoreSamples.count_override [MoreSamples.task_with_objective]
              MoreSamples.task_with_objective eq_refl
              ltac:(discriminate)
              [("a", [("count", VNum 5)])] "a" [("count", VNum 5)]
              Samples.objective_a "count" (VNum 5)
              eq_refl (or_introl eq_refl) eq_refl (or_introl eq_refl)
              eq_refl) as [_ Hneeded].
  apply Hneeded. discriminate.
Defined.

Lemma added_objectives_checked_witness :
  r_status (validateTaskOverride String.compare "t1"
              MoreSamples.objective_override [MoreSamples.task_with_objective])
  = NEEDED.
Proof.
  destruct (added_objectives_checked String.compare "t1"
              MoreSamples.objective_override [MoreSamples.task_with_objective]
              MoreSamples.task_with_objective eq_refl
              ltac:(discriminate) [Samples.objective_z] eq_refl)
    as [_ [_ Hneeded]].
  apply (Hneeded Samples.objective_z (or_introl eq_refl)).
  intros o [<-|[]]. reflexivity.
Defined.

Lemma copied_override_is_fixed_witness :
  r_status (validateTaskOverride String.compare "t1"
              (Samples.level_override 10) [Samples.live_task 10])
  = FIXED.
Proof.
  apply (copied_override_is_fixed String.compare "t1"
           (Samples.level_override 10) [Samples.live_task 10]
           (Samples.live_task 10) eq_refl ltac:(discriminate)
           eq_refl eq_refl eq_refl).
  intros f. destruct f; cbn; auto.
Defined.

End ReconcilerExtras.

(* ================================================================== *)
(** * Further properties of the patch applier                           *)
(* ================================================================== *)

Module ApplyExtras.
Import JS ApplyOverlay Spec Aux JSFacts ApplyProps Notions.

Lemma mapM_Throw {A B} (f : A -> result B) (l : list A) :
  mapM f l = Throw <-> Exists (fun x => f x = Throw) l.
Proof.
  induction l as [|x l IH]; cbn.
  - split; [discriminate|intros H; inversion H].
  - destruct (f x) as [y|] eqn:E; cbn.
    + destruct (mapM f l) as [ys|] eqn:Em; cbn.
      * split; [discriminate|]. intros H. inversion H as [? ? Hx|? ? Hl]; subst.
        -- congruence.
        -- apply IH in Hl. discriminate.
      * split; [|reflexivity]. intros _. right. now apply IH.
    + split; [|reflexivity]. intros _. now left.
Qed.

Lemma absent_override_returns (task overlay : obj) :
  get overlay "tasks" = VUndefined
  \/ (exists m, get overlay "tasks" = VObj m
                /\ ~ In (String_ (get task "id")) (keys m)) ->
  applyTaskOverlay task overlay = Ok (Some task).
Proof.
  unfold applyTaskOverlay.
  intros [-> | [m [-> Hnot]]]; cbn [opt_member prop]; [reflexivity|].
  rewrite (get_absent _ _ Hnot). reflexivity.
Qed.

(** X15. With an overlay that has no task map, or whose task map has no
    entry for any of the tasks, the batch form returns the list of tasks
    as it is. *)
Theorem batch_without_overrides (tasks : list obj) (overlay : obj) :
  get overlay "tasks" = VUndefined
  \/ (exists m, get overlay "tasks" = VObj m
                /\ forall t, In t tasks ->
                             ~ In (String_ (get t "id")) (keys m)) ->
  applyOverlayToTasks tasks overlay = Ok tasks.
Proof.
  intros Habsent. unfold applyOverlayToTasks.
  assert (Hmap : mapM (fun task => applyTaskOverlay task overlay) tasks
                 = Ok (List.map Some tasks)).
  { assert (Hall : forall t, In t tasks ->
                             applyTaskOverlay t overlay = Ok (Some t)).
    { intros t Hin. apply absent_override_returns.
      destruct Habsent as [H|[m [Hm Hnot]]]; [now left|].
      right. exists m. split; [exact Hm|now apply Hnot]. }
    clear Habsent. induction tasks as [|t tasks IH]; cbn; [reflexivity|].
    rewrite (Hall t (or_introl eq_refl)). cbn.
    rewrite IH; [reflexivity|]. intros t' Hin. apply Hall. now right. }
  rewrite Hmap. cbn. f_equal.
  clear. induction tasks as [|t tasks IH]; cbn; [reflexivity|now rewrite IH].
Qed.

(** X16. The batch form throws exactly when [applyTaskOverlay] throws on one
    of the tasks; no task is skipped on error. *)
Theorem batch_throws_iff (tasks : list obj) (overlay : obj) :
  applyOverlayToTasks tasks overlay = Throw
  <-> exists t, In t tasks /\ applyTaskOverlay t overlay = Throw.
Proof.
  unfold applyOverlayToTasks. rewrite <- Exists_exists, <- mapM_Throw.
  destruct (mapM _ tasks); cbn; split; intros H; try discriminate;
    reflexivity.
Qed.

Section Enabled.
Variables (task overlay ov : obj).
Hypothesis Hentry : task_override overlay task = VObj ov.
Hypothesis Henabled : get ov "disabled" <> VBool true.

Lemma enabled_unfold :
  applyTaskOverlay task overlay
  = (let result := fold_left apply_field ov (spread (VObj task)) in
     result <-
       (if truthy (get ov "objectives") && truthy (get task "objectives")
        then
          match get task "objectives" with
          | VArr objectives =>
              patched <- mapM (patch_objective (VObj ov)) objectives ;;
              Ok (set result "objectives" (VArr patched))
          | _ => Throw
          end
        else Ok result) ;;
     result <-
       (if truthy (get ov "objectivesAdd") then
          old <- iterate (or_else (get result "objectives") (VArr [])) ;;
          added <- iterate (get ov "objectivesAdd") ;;
          Ok (set result "objectives" (VArr (old ++ added)))
        else Ok result) ;;
     Ok (Some result)).
Proof.
  unfold applyTaskOverlay. fold (task_override overlay task).
  rewrite Hentry. cbn [truthy negb prop own_entries].
  destruct (strict_eq (get ov "disabled") (VBool true)) eqn:E;
    [|reflexivity].
  apply strict_eq_true in E. contradiction.
Qed.

(** X17. Malformed objective data makes [applyTaskOverlay] throw instead of
    being skipped: with an objectives map in the patch, a task whose
    [objectives] is truthy but no array, or an array holding [null] or
    [undefined]; and an [objectivesAdd] that is truthy but neither an array
    nor a string. *)
Theorem malformed_objectives_throw :
  (truthy (get ov "objectives") = true ->
   truthy (get task "objectives") = true ->
   (forall l, get task "objectives" <> VArr l) ->
   applyTaskOverlay task overlay = Throw)
  /\ (truthy (get ov "objectives") = true ->
      forall objs hole,
        get task "objectives" = VArr objs ->
        In hole objs -> nullish hole = true ->
        applyTaskOverlay task overlay = Throw)
  /\ (truthy (get ov "objectivesAdd") = true ->
      iterable (get ov "objectivesAdd") = false ->
      applyTaskOverlay task overlay = Throw).
Proof.
  rewrite enabled_unfold. cbv zeta. split; [|split].
  - intros -> Ht Hna. rewrite Ht. cbn [andb].
    destruct (get task "objectives"); try reflexivity.
    exfalso. now apply (Hna items).
  - intros -> objs hole Hobjs Hin Hnull. rewrite Hobjs. cbn [truthy andb].
    assert (Hm : mapM (patch_objective (VObj ov)) objs = Throw).
    { apply mapM_Throw. apply Exists_exists. exists hole.
      split; [exact Hin|]. destruct hole; try discriminate; reflexivity. }
    rewrite Hm. reflexivity.
  - intros -> Hni.
    match goal with
    | |- bind ?first _ = Throw => destruct first as [r|]; [|reflexivity]
    end.
    cbn [bind].
    destruct (iterate (or_else (get r "objectives") (VArr [])));
      [|reflexivity].
    cbn [bind]. destruct (get ov "objectivesAdd"); try discriminate;
      reflexivity.
Qed.

End Enabled.

(** X18. For a patch that has no key [__proto__]: outside [objectives], the
    corrected task is the shallow merge of the task with the patch: a key of
    the patch (other than [objectives] and [objectivesAdd]) has the patch's
    value, any other key keeps the task's value, and [objectivesAdd] never
    becomes a property of the result.  (Under the key [__proto__] the
    assignment of the source defines no property.) *)
Theorem top_level_fields_merged (task overlay m ov : obj)
  (Htask : well_formed (VObj task) = true)
  (Hoverlay : well_formed (VObj overlay) = true)
  (Htasks : get overlay "tasks" = VObj m)
  (Hentry : lookup m (String_ (get task "id")) = Some (VObj ov))
  (Henabled : get ov "disabled" <> VBool true)
  (Hplain : ~ In "__proto__" (keys ov))
  (Htyped_task : typed_task task = true)
  (Htyped_patch : typed_patch ov = true) :
  exists r,
    applyTaskOverlay task overlay = Ok (Some r)
    /\ (forall k, k <> "objectives" -> k <> "objectivesAdd" ->
                  lookup r k = match lookup ov k with
                               | Some v => Some v
                               | None => lookup task k
                               end)
    /\ lookup r "objectivesAdd" = lookup task "objectivesAdd".
Proof.
  destruct (apply_typed_result task overlay m ov Htask Htasks Hentry
              Henabled Htyped_task Htyped_patch) as [r [Hr [Hother _]]].
  assert (Hov : NoDup (keys ov)).
  { apply well_formed_keys.
    pose proof (well_formed_get overlay "tasks" Hoverlay) as Hm.
    rewrite Htasks in Hm. exact (well_formed_lookup m _ _ Hm Hentry). }
  pose proof (well_formed_keys task Htask) as Hnd.
  exists r. split; [exact Hr|]. split.
  - intros k Hk Hk'. rewrite (Hother k Hk), lookup_apply_fields.
    assert (Hs : handled_separately k = false).
    { unfold handled_separately. apply orb_false_iff.
      split; apply String.eqb_neq; assumption. }
    rewrite Hs, (lookup_rev ov k Hov), (lookup_spread task k Hnd).
    reflexivity.
  - rewrite Hother by discriminate. rewrite lookup_apply_fields.
    change (handled_separately "objectivesAdd") with true. cbv iota.
    now apply lookup_spread.
Qed.

Lemma batch_without_overrides_witness :
  applyOverlayToTasks [Samples.task_t1; Samples.task_t2] []
  = Ok [Samples.task_t1; Samples.task_t2]
  /\ applyOverlayToTasks [Samples.task_t3] Samples.overlay
     = Ok [Samples.task_t3].
Proof.
  split.
  - apply batch_without_overrides. left. reflexivity.
  - apply batch_without_overrides. right. exists Samples.overlay_tasks.
    split; [reflexivity|].
    intros t [<-|[]]. cbn. intros [H|[H|[]]]; discriminate.
Defined.

Lemma malformed_objectives_throw_witness :
  applyTaskOverlay MoreSamples.task_with_hole Samples.overlay = Throw.
Proof.
  destruct (malformed_objectives_throw MoreSamples.task_with_hole
              Samples.overlay Samples.patch_t1 eq_refl
              ltac:(cbn; discriminate)) as [_ [Hhole _]].
  apply (Hhole eq_refl [VObj Samples.objective_a; VNull] VNull eq_refl).
  - right. now left.
  - reflexivity.
Defined.

Lemma top_level_fields_merged_witness :
  exists r,
    applyTaskOverlay Samples.task_t1 Samples.overlay = Ok (Some r)
    /\ lookup r "minPlayerLevel" = Some (VNum 9)
    /\ lookup r "name" = Some (VStr "Debut")
    /\ lookup r "objectivesAdd" = None.
Proof.
  destruct (top_level_fields_merged Samples.task_t1 Samples.overlay
              Samples.overlay_tasks Samples.patch_t1
              eq_refl eq_refl eq_refl eq_refl ltac:(cbn; discriminate)
              ltac:(cbn; intuition discriminate)
              eq_refl eq_refl) as [r [Hr [Hmerge Hadd]]].
  exists r. split; [exact Hr|]. split; [|split].
  - rewrite Hmerge by discriminate. reflexivity.
  - rewrite Hmerge by discriminate. reflexivity.
  - rewrite Hadd. reflexivity.
Defined.

End ApplyExtras.

(* ================================================================== *)
(** * Properties of the check-overrides script                          *)
(* ================================================================== *)

Module CheckOverridesProps.
Import JS TaskValidator CheckOverrides JSFacts Notions ApplyExtras.

Lemma map_get_set {A} (m : Map A) (k : string) (v : A) (k' : string) :
  map_get (map_set m k v) k' = if k =? k' then Some v else map_get m k'.
Proof.
  induction m as [|[k0 v0] m IH]; cbn.
  - destruct (k =? k'); reflexivity.
  - destruct (k0 =? k) eqn:E; cbn.
    + apply String.eqb_eq in E. subst. destruct (k =? k'); reflexivity.
    + rewrite IH. destruct (k0 =? k') eqn:E'; [|reflexivity].
      apply String.eqb_eq in E'. subst. rewrite String.eqb_sym, E.
      reflexivity.
Qed.

Lemma in_missing_references (apiTaskIds : list string) (edition : EditionData)
  (k : ReferenceKind) (ids : option (list string))
  (ref : EditionTaskReference) :
  In ref (missing_references apiTaskIds edition k ids) <->
  ref = {| editionId := e_id edition; editionTitle := e_title edition;
           taskId := taskId ref; kind := k |}
  /\ In (taskId ref) (or_empty ids)
  /\ ~ In (taskId ref) apiTaskIds.
Proof.
  unfold missing_references. rewrite in_flat_map. split.
  - intros [id [Hid Hin]].
    destruct (existsb (String.eqb id) apiTaskIds) eqn:E; cbn in Hin;
      [contradiction|].
    destruct Hin as [<-|[]]. cbn. split; [reflexivity|]. split; [exact Hid|].
    intros Hin. apply existsb_eqb_In in Hin. congruence.
  - intros [Href [Hid Hnot]]. exists (taskId ref). split; [exact Hid|].
    destruct (existsb (String.eqb (taskId ref)) apiTaskIds) eqn:E.
    + apply existsb_eqb_In in E. contradiction.
    + cbn. left. now symmetry.
Qed.

(** X19. [checkEditionTaskReferences] reports exactly the references of the
    editions to task ids that no live task has, each under the id and title
    of its edition and the kind of the list it comes from; the report is
    empty exactly when every referenced id is live. *)
Theorem edition_references_missing
  (editions : list (string * EditionData)) (apiTasks : list TaskData) :
  (forall ref,
      In ref (checkEditionTaskReferences editions apiTasks) <->
      exists entry,
        In entry editions
        /\ editionId ref = e_id (snd entry)
        /\ editionTitle ref = e_title (snd entry)
        /\ In (taskId ref) (ids_of_kind (snd entry) (kind ref))
        /\ ~ In (taskId ref) (List.map t_id apiTasks))
  /\ (checkEditionTaskReferences editions apiTasks = [] <->
      forall entry id,
        In entry editions -> In id (referenced_ids (snd entry)) ->
        In id (List.map t_id apiTasks)).
Proof.
  assert (Hchar : forall ref,
             In ref (checkEditionTaskReferences editions apiTasks) <->
             exists entry,
               In entry editions
               /\ editionId ref = e_id (snd entry)
               /\ editionTitle ref = e_title (snd entry)
               /\ In (taskId ref) (ids_of_kind (snd entry) (kind ref))
               /\ ~ In (taskId ref) (List.map t_id apiTasks)).
  { intros ref. unfold checkEditionTaskReferences. rewrite in_flat_map.
    split.
    - intros [entry [He Hin]]. exists entry. split; [exact He|].
      apply in_app_or in Hin.
      destruct Hin as [Hin|Hin]; apply in_missing_references in Hin;
        destruct Hin as [-> [Hid Hnot]]; cbn in *; auto.
    - intros [entry [He [Hi [Ht [Hid Hnot]]]]]. exists entry.
      split; [exact He|]. apply in_or_app.
      destruct ref as [ri rt rid rk]. cbn in *. subst ri rt.
      destruct rk; [left|right]; apply in_missing_references; cbn; auto. }
  split; [exact Hchar|]. split.
  - intros Hempty entry id He Hid.
    destruct (in_dec string_dec id (List.map t_id apiTasks)) as [H|H];
      [exact H|exfalso].
    unfold referenced_ids in Hid. apply in_app_or in Hid.
    assert (Hin : exists ref,
               In ref (checkEditionTaskReferences editions apiTasks)).
    { destruct Hid as [Hid|Hid].
      - exists {| editionId := e_id (snd entry);
                  editionTitle := e_title (snd entry);
                  taskId := id; kind := exclusive |}.
        apply Hchar. exists entry. cbn. auto.
      - exists {| editionId := e_id (snd entry);
                  editionTitle := e_title (snd entry);
                  taskId := id; kind := excluded |}.
        apply Hchar. exists entry. cbn. auto. }
    destruct Hin as [ref Hin]. rewrite Hempty in Hin. contradiction.
  - intros Hall.
    destruct (checkEditionTaskReferences editions apiTasks) as [|ref l] eqn:E;
      [reflexivity|exfalso].
    assert (Hin : In ref (ref :: l)) by now left.
    apply Hchar in Hin. destruct Hin as [entry [He [_ [_ [Hid Hnot]]]]].
    apply Hnot, (Hall entry); [exact He|].
    unfold referenced_ids. apply in_or_app.
    destruct (kind ref); cbn in Hid; auto.
Qed.

Section Additions.
Variable trim : string -> string.
Variable toLowerCase : string -> string.
Variable collapse_whitespace : string -> string.

Lemma normalizeWikiLink_throws (link : value) :
  normalizeWikiLink trim toLowerCase link = Throw <->
  truthy link = true /\ (forall s, link <> VStr s).
Proof.
  unfold normalizeWikiLink. destruct (truthy link) eqn:Et; cbn.
  - destruct link; split; intros H; try discriminate; try reflexivity;
      try (split; [reflexivity|discriminate]).
    destruct H as [_ H]. exfalso. now apply (H s).
  - split; [discriminate|]. intros [H _]. discriminate.
Qed.

Lemma index_task_ok (done : list TaskData) (idx : Indexes) (task : TaskData) :
  normalizeWikiLink trim toLowerCase (t_wikiLink task) <> Throw ->
  indexes_of trim toLowerCase collapse_whitespace done idx ->
  exists idx',
    index_task trim toLowerCase collapse_whitespace idx task = Ok idx'
    /\ indexes_of trim toLowerCase collapse_whitespace
         (done ++ [task])%list idx'.
Proof.
  intros Hok [Hlinks Hnames]. unfold index_task.
  destruct (normalizeWikiLink trim toLowerCase (t_wikiLink task))
    as [wikiKey|] eqn:Ew; [|congruence].
  cbn [bind]. eexists. split; [reflexivity|]. split; cbn [byWikiLink byName].
  - intros k. rewrite rev_app_distr. cbn [rev app find].
    unfold same_link at 1, link_key. rewrite Ew.
    destruct wikiKey as [k0|]; [|apply Hlinks].
    destruct (negb (k0 =? EmptyString)); [|apply Hlinks].
    rewrite map_get_set, Hlinks. reflexivity.
  - intros n. rewrite map_get_set, filter_app. cbn [filter].
    unfold same_name at 2.
    fold (same_name trim toLowerCase collapse_whitespace n).
    destruct (normalizeName trim toLowerCase collapse_whitespace
                (t_name task) =? n) eqn:En.
    + apply String.eqb_eq in En. subst n. rewrite Hnames.
      destruct (filter _ done); reflexivity.
    + rewrite app_nil_r. apply Hnames.
Qed.

Lemma fold_index_ok (rest done : list TaskData) (idx : Indexes) :
  Forall (fun t => normalizeWikiLink trim toLowerCase (t_wikiLink t) <> Throw)
    rest ->
  indexes_of trim toLowerCase collapse_whitespace done idx ->
  exists idx',
    fold_left
      (fun acc task =>
         i <- acc ;; index_task trim toLowerCase collapse_whitespace i task)
      rest (Ok idx) = Ok idx'
    /\ indexes_of trim toLowerCase collapse_whitespace (done ++ rest)%list idx'.
Proof.
  revert done idx. induction rest as [|t rest IH]; intros done idx Hall Hinv.
  - exists idx. rewrite app_nil_r. split; [reflexivity|exact Hinv].
  - inversion Hall as [|? ? Ht Hrest]; subst.
    destruct (index_task_ok done idx t Ht Hinv) as [idx1 [H1 Hinv1]].
    destruct (IH (done ++ [t])%list idx1 Hrest Hinv1) as [idx' [H' Hinv']].
    exists idx'. cbn [fold_left bind]. rewrite H1.
    rewrite <- app_assoc in Hinv'. split; assumption.
Qed.

Lemma fold_index_throw (rest : list TaskData) :
  fold_left
    (fun acc task =>
       i <- acc ;; index_task trim toLowerCase collapse_whitespace i task)
    rest Throw = Throw.
Proof. induction rest as [|t rest IH]; cbn; [reflexivity|exact IH]. Qed.

Lemma buildApiIndexes_result (apiTasks : list TaskData) :
  (Forall (fun t => normalizeWikiLink trim toLowerCase (t_wikiLink t)
                    <> Throw) apiTasks ->
   exists idx,
     buildApiIndexes trim toLowerCase collapse_whitespace apiTasks = Ok idx
     /\ indexes_of trim toLowerCase collapse_whitespace apiTasks idx)
  /\ (Exists (fun t => normalizeWikiLink trim toLowerCase (t_wikiLink t)
                       = Throw) apiTasks ->
      buildApiIndexes trim toLowerCase collapse_whitespace apiTasks = Throw).
Proof.
  split.
  - intros Hall. apply (fold_index_ok apiTasks [] _ Hall).
    split; intros; reflexivity.
  - unfold buildApiIndexes. generalize {| byWikiLink := []; byName := [] |}.
    induction apiTasks as [|t rest IH]; intros idx Hex;
      [inversion Hex|].
    cbn [fold_left bind]. unfold index_task at 2.
    destruct (normalizeWikiLink trim toLowerCase (t_wikiLink t)) as [w|] eqn:Ew;
      cbn [bind].
    + apply IH. inversion Hex; subst; [congruence|assumption].
    + apply fold_index_throw.
Qed.

Lemma find_some_iff {A} (p : A -> bool) (l : list A) :
  find p l <> None <-> exists x, In x l /\ p x = true.
Proof.
  split.
  - destruct (find p l) eqn:E; [|congruence]. intros _.
    apply find_some in E. eauto.
  - intros [x [Hin Hp]] E. pose proof (find_none _ _ E x Hin). congruence.
Qed.

Lemma check_addition_result (apiTasks : list TaskData) (idx : Indexes)
  (key : string) (a : TaskAddition) :
  indexes_of trim toLowerCase collapse_whitespace apiTasks idx ->
  normalizeWikiLink trim toLowerCase (a_wikiLink a) <> Throw ->
  exists r,
    check_addition trim toLowerCase collapse_whitespace idx (key, a) = Ok r
    /\ ar_key r = key /\ ar_name r = a_name a
    /\ (ar_status r = RESOLVED <->
        link_resolved trim toLowerCase apiTasks a)
    /\ (ar_status r = CHECK <->
        ~ link_resolved trim toLowerCase apiTasks a
        /\ name_matched trim toLowerCase collapse_whitespace apiTasks a)
    /\ (ar_status r = MISSING <->
        ~ link_resolved trim toLowerCase apiTasks a
        /\ ~ name_matched trim toLowerCase collapse_whitespace apiTasks a).
Proof.
  intros [Hlinks Hnames] Hok. unfold check_addition.
  destruct (normalizeWikiLink trim toLowerCase (a_wikiLink a))
    as [wikiKey|] eqn:Ew; [|congruence].
  cbn [bind].
  set (wikiMatch := match wikiKey with
                    | Some k => if negb (k =? EmptyString)
                                then map_get (byWikiLink idx) k else None
                    | None => None
                    end).
  assert (Hres : wikiMatch <> None
                 <-> link_resolved trim toLowerCase apiTasks a).
  { assert (Ha : link_key trim toLowerCase (a_wikiLink a)
                 = match wikiKey with
                   | Some k => if negb (k =? EmptyString) then Some k else None
                   | None => None
                   end).
    { unfold link_key. now rewrite Ew. }
    unfold link_resolved. rewrite Ha. unfold wikiMatch.
    destruct wikiKey as [k|].
    - destruct (negb (k =? EmptyString)).
      + rewrite Hlinks, find_some_iff. split.
        * intros [t [Hin Hs]]. apply in_rev in Hin. exists k, t.
          split; [reflexivity|]. split; [exact Hin|].
          unfold same_link in Hs.
          destruct (link_key trim toLowerCase (t_wikiLink t)) as [k'|];
            [|discriminate].
          apply String.eqb_eq in Hs. now subst.
        * intros [k' [t [[= <-] [Hin Hk]]]]. exists t.
          split; [now apply in_rev in Hin|].
          unfold same_link. rewrite Hk. apply String.eqb_refl.
      + split; [congruence|]. intros [k' [t [H _]]]. discriminate.
    - split; [congruence|]. intros [k' [t [H _]]]. discriminate. }
  set (nameKey := normalizeName trim toLowerCase collapse_whitespace
                    (a_name a)).
  assert (Hname : or_empty (map_get (byName idx) nameKey) <> []
                  <-> name_matched trim toLowerCase collapse_whitespace
                        apiTasks a).
  { rewrite Hnames. unfold name_matched. fold nameKey.
    set (same := same_name trim toLowerCase collapse_whitespace nameKey).
    split.
    - intros H.
      destruct (filter same apiTasks) as [|t l] eqn:Ef;
        [cbn in H; congruence|].
      assert (Hin : In t (filter same apiTasks)) by (rewrite Ef; now left).
      apply filter_In in Hin. destruct Hin as [Hin Hs].
      exists t. split; [exact Hin|]. now apply String.eqb_eq in Hs.
    - intros [t [Hin Hs]].
      assert (Hf : In t (filter same apiTasks)).
      { apply filter_In. split; [exact Hin|].
        unfold same, same_name. rewrite Hs. apply String.eqb_refl. }
      destruct (filter same apiTasks); [contradiction|]. cbn. discriminate. }
  destruct wikiMatch as [task|].
  - eexists. split; [reflexivity|]. cbn.
    assert (Hr : link_resolved trim toLowerCase apiTasks a)
      by (apply Hres; discriminate).
    repeat split; try reflexivity; try discriminate; try tauto.
  - assert (Hr : ~ link_resolved trim toLowerCase apiTasks a).
    { intros H. apply Hres in H. congruence. }
    destruct (or_empty (map_get (byName idx) nameKey)) as [|t1 [|t2 l]].
    + assert (Hn : ~ name_matched trim toLowerCase collapse_whitespace
                     apiTasks a).
      { intros H. apply Hname in H. congruence. }
      eexists. split; [reflexivity|]. cbn.
      repeat split; try reflexivity; try discriminate; try tauto.
    + assert (Hn : name_matched trim toLowerCase collapse_whitespace
                     apiTasks a) by (apply Hname; discriminate).
      eexists. split; [reflexivity|]. cbn.
      repeat split; try reflexivity; try discriminate; try tauto.
    + assert (Hn : name_matched trim toLowerCase collapse_whitespace
                     apiTasks a) by (apply Hname; discriminate).
      eexists. split; [reflexivity|]. cbn.
      repeat split; try reflexivity; try discriminate; try tauto.
Qed.

(** X20. When every wiki link is a string or falsy, [checkTaskAdditions]
    returns one result per addition, in order, under the key and the name
    of the addition: RESOLVED exactly when a live task has the same
    non-empty normalised wiki link; otherwise CHECK when a live task has the
    same normalised name and MISSING when none has. *)
Theorem additions_classified
  (additions : list (string * TaskAddition)) (apiTasks : list TaskData) :
  Forall (fun t => normalizeWikiLink trim toLowerCase (t_wikiLink t) <> Throw)
    apiTasks ->
  Forall (fun e => normalizeWikiLink trim toLowerCase (a_wikiLink (snd e))
                   <> Throw)
    additions ->
  exists results,
    checkTaskAdditions trim toLowerCase collapse_whitespace additions apiTasks
    = Ok results
    /\ Forall2
         (fun e r =>
            ar_key r = fst e /\ ar_name r = a_name (snd e)
            /\ (ar_status r = RESOLVED <->
                link_resolved trim toLowerCase apiTasks (snd e))
            /\ (ar_status r = CHECK <->
                ~ link_resolved trim toLowerCase apiTasks (snd e)
                /\ name_matched trim toLowerCase collapse_whitespace
                     apiTasks (snd e))
            /\ (ar_status r = MISSING <->
                ~ link_resolved trim toLowerCase apiTasks (snd e)
                /\ ~ name_matched trim toLowerCase collapse_whitespace
                       apiTasks (snd e)))
         additions results.
Proof.
  intros Htasks Hadds.
  destruct (proj1 (buildApiIndexes_result apiTasks) Htasks) as [idx [Hb Hinv]].
  unfold checkTaskAdditions. rewrite Hb. cbn [bind].
  induction Hadds as [|[key a] additions Ha Hrest [results [Hm Hall]]].
  - exists []. split; [reflexivity|constructor].
  - destruct (check_addition_result apiTasks idx key a Hinv Ha)
      as [r [Hr Hprops]].
    exists (r :: results). cbn [mapM]. rewrite Hr. cbn [bind].
    rewrite Hm. cbn [bind]. split; [reflexivity|].
    constructor; [exact Hprops|exact Hall].
Qed.

(** X21. [checkTaskAdditions] throws whenever the wiki link of a live task
    or of an addition is truthy without being a string: no result is
    returned for the other additions. *)
Theorem additions_throw_on_malformed_link
  (additions : list (string * TaskAddition)) (apiTasks : list TaskData) :
  (exists t, In t apiTasks
             /\ truthy (t_wikiLink t) = true
             /\ forall s, t_wikiLink t <> VStr s)
  \/ (exists e, In e additions
                /\ truthy (a_wikiLink (snd e)) = true
                /\ forall s, a_wikiLink (snd e) <> VStr s) ->
  checkTaskAdditions trim toLowerCase collapse_whitespace additions apiTasks
  = Throw.
Proof.
  intros Hbad. unfold checkTaskAdditions.
  destruct (buildApiIndexes trim toLowerCase collapse_whitespace apiTasks)
    as [idx|] eqn:Hb; [|reflexivity].
  cbn [bind]. destruct Hbad as [[t [Hin Ht]]|[[key a] [Hin Ha]]].
  - apply normalizeWikiLink_throws in Ht.
    assert (Hex : Exists (fun t => normalizeWikiLink trim toLowerCase
                                     (t_wikiLink t) = Throw) apiTasks)
      by (apply Exists_exists; eauto).
    rewrite (proj2 (buildApiIndexes_result apiTasks) Hex) in Hb.
    discriminate.
  - apply mapM_Throw, Exists_exists. exists (key, a). split; [exact Hin|].
    apply normalizeWikiLink_throws in Ha. cbn [snd] in Ha.
    unfold check_addition. now rewrite Ha.
Qed.

End Additions.

Lemma additions_classified_witness :
  exists results,
    checkTaskAdditions MoreSamples.unchanged MoreSamples.unchanged
      MoreSamples.unchanged
      [("a1", MoreSamples.addition_debut); ("a2", MoreSamples.addition_new)]
      [MoreSamples.task_with_objective]
    = Ok results
    /\ List.length results = 2.
Proof.
  destruct (additions_classified MoreSamples.unchanged MoreSamples.unchanged
              MoreSamples.unchanged
              [("a1", MoreSamples.addition_debut);
               ("a2", MoreSamples.addition_new)]
              [MoreSamples.task_with_objective])
    as [results [Hr Hall]].
  - repeat constructor. discriminate.
  - repeat constructor; discriminate.
  - exists results. split; [exact Hr|].
    apply Forall2_length in Hall. now rewrite <- Hall.
Defined.

Lemma additions_throw_on_malformed_link_witness :
  checkTaskAdditions MoreSamples.unchanged MoreSamples.unchanged
    MoreSamples.unchanged
    [("a1", MoreSamples.addition_debut);
     ("a2", MoreSamples.addition_malformed)]
    [MoreSamples.task_with_objective]
  = Throw.
Proof.
  apply additions_throw_on_malformed_link. right.
  exists ("a2", MoreSamples.addition_malformed).
  split; [right; now left|]. split; [reflexivity|discriminate].
Defined.

End CheckOverridesProps.
